(** * Commit-range resolution of copilot-sprint-summary (gitRange)

    A shallow embedding of the range-resolution core: [normalizeHash],
    [normalizeCommit], [normalizeParentHash], [getCommitDate],
    [collectAncestorHashes] and [getCommitsForSelection], followed by the
    properties the specification states about them; then the helpers of the
    extension around it ([shortHash], [calculateDaysSpan],
    [getTagsByRecency], [formatDate], the author stage and the files line of
    the summarize command) and the log parser of the test, with properties
    read off the code.

    Conventions of the embedding:
    - a JavaScript string is the list of its UTF-16 code units ([list N]);
      [str] turns an ASCII literal into such a list;
    - [undefined] for an optional string or date is [None];
    - a rejected promise / thrown exception is [Throw], a fulfilled one [Ok];
    - a JavaScript [Set<string>] is a [gset]; only [has], [add] and [size]
      are used by the code;
    - the repository object is a pair of functions [log] and [getCommit];
    - [Date] objects carry their time value in milliseconds, [None] being
      the invalid date (time value NaN). *)

From stdpp Require Import gmap strings list sets sorting pretty.
From Equations Require Import Equations.

Set Default Proof Using "Type".
Set Warnings "-clear-no-such-hyp".
Local Open Scope Z_scope.

(** ** JavaScript strings *)

Abbreviation jsstring := (list N).

Definition str (s : string) : jsstring :=
  Ascii.N_of_ascii <$> String.list_ascii_of_string s.

(** WhiteSpace and LineTerminator code points of ECMAScript, the ones
    [String.prototype.trim] strips. All of them are single code units. *)
Definition isWhiteSpace (c : N) : bool :=
  ((c =? 0x09) || (c =? 0x0A) || (c =? 0x0B) || (c =? 0x0C) || (c =? 0x0D)
   || (c =? 0x20) || (c =? 0xA0) || (c =? 0x1680)
   || ((0x2000 <=? c) && (c <=? 0x200A))
   || (c =? 0x2028) || (c =? 0x2029) || (c =? 0x202F) || (c =? 0x205F)
   || (c =? 0x3000) || (c =? 0xFEFF))%N.

Fixpoint trimStart (s : jsstring) : jsstring :=
  match s with
  | [] => []
  | c :: s' => if isWhiteSpace c then trimStart s' else s
  end.

Definition trimEnd (s : jsstring) : jsstring :=
  reverse (trimStart (reverse s)).

(** [String.prototype.trim] *)
Definition trim (s : jsstring) : jsstring := trimEnd (trimStart s).

(** Truthiness of a string: every string but the empty one. *)
Definition truthyString (s : jsstring) : bool :=
  match s with [] => false | _ => true end.

(** ** Identifier normalization *)

(** [normalizeHash(hash?: string): string | undefined] *)
Definition normalizeHash (hash : option jsstring) : option jsstring :=
  match hash with
  | None => None
  | Some h =>
      if negb (truthyString h) then None
      else
        let trimmed := trim h in
        if truthyString trimmed then Some trimmed else None
  end.

(** ** Untyped values

    [normalizeParentHash] and the [parents] field are used at type [any] and
    inspected with [typeof] and [Array.isArray]; they are embedded as values
    of a small universe of JavaScript values. *)

#[warnings="-register-all"]
Inductive JsValue :=
| JUndefined
| JNull
| JBool (b : bool)
| JNumber (n : Z)
| JString (s : jsstring)
| JArray (elems : list JsValue)
| JObject (props : gmap string JsValue).

(** [!v] is [negb (truthy v)]; numbers are the integral ones. *)
Definition truthy (v : JsValue) : bool :=
  match v with
  | JUndefined | JNull => false
  | JBool b => b
  | JNumber n => negb (n =? 0)
  | JString s => truthyString s
  | JArray _ | JObject _ => true
  end.

(** Property read [v.key] on a value that is neither [null] nor
    [undefined], for a key that no prototype defines. *)
Definition getProp (v : JsValue) (key : string) : JsValue :=
  match v with
  | JObject props => default JUndefined (props !! key)
  | _ => JUndefined
  end.

(** [normalizeParentHash(parent: any): string | undefined] *)
Definition normalizeParentHash (parent : JsValue) : option jsstring :=
  if negb (truthy parent) then None
  else
    match parent with
    | JString s => Some s
    | _ =>
        match getProp parent "hash" with
        | JString s => Some s
        | _ =>
            match getProp parent "sha" with
            | JString s => Some s
            | _ =>
                match getProp parent "commit" with
                | JString s => Some s
                | _ => None
                end
            end
        end
    end.

(** ** Commits, dates and the repository *)

(** A [Date]: its time value, [None] for the invalid date. *)
Abbreviation JsDate := (option Z).

Record Commit := mkCommit {
  hash : option jsstring;
  parents : JsValue;
  authorDate : option JsDate;
  commitDate : option JsDate;
  authorName : jsstring;
  message : jsstring
}.

#[global] Instance Commit_inhabited : Inhabited Commit :=
  populate (mkCommit None JUndefined None None [] []).

(** [new Date(commit.authorDate || commit.commitDate || 0)] *)
Definition getCommitDate (commit : Commit) : JsDate :=
  match authorDate commit with
  | Some d => d
  | None =>
      match commitDate commit with
      | Some d => d
      | None => Some 0
      end
  end.

(** [a >= b] on two dates: both are converted to their time values, and a
    comparison with NaN is false. *)
Definition dateGe (a b : JsDate) : bool :=
  match a, b with
  | Some x, Some y => y <=? x
  | _, _ => false
  end.

(** [normalizeCommit(commit)]; a commit object is truthy, so the guard
    [if (!commit)] never fires. *)
Definition normalizeCommit (commit : Commit) : Commit :=
  match normalizeHash (hash commit) with
  | Some normalizedHash =>
      if bool_decide (Some normalizedHash ≠ hash commit)
      then mkCommit (Some normalizedHash) (parents commit) (authorDate commit)
                    (commitDate commit) (authorName commit) (message commit)
      else commit
  | None => commit
  end.

(** Outcome of an awaited call: fulfilled with a value or rejected. *)
Inductive Result (A : Type) :=
| Ok (a : A)
| Throw.
Arguments Ok {A} a.
Arguments Throw {A}.

Record LogOptions := mkLogOptions {
  maxEntries : Z;
  ref : option jsstring
}.

(** The repository capability: [repo.log(options)] and
    [repo.getCommit(hash)]. *)
Record Repo := mkRepo {
  log : LogOptions → Result (list Commit);
  getCommit : jsstring → Result Commit
}.

Inductive RangeSelection :=
| DaysSelection (sinceDate : JsDate) (days : Z)
| TagSelection (sinceDate : JsDate) (tag : jsstring) (commitHash : jsstring)
| CommitSelection (sinceDate : JsDate) (commitHash : jsstring).

Definition MAX_LOG_ENTRIES : Z := 200.

(** The options of every log fetch: [{ maxEntries: MAX_LOG_ENTRIES }]. *)
Definition logOptions : LogOptions := mkLogOptions MAX_LOG_ENTRIES None.

(** ** Ancestor collection *)

(** The operations a run performs, in program order: the two repository
    calls, [visited.add] and [queue.push]. The log is a ghost field; no
    branch of the code depends on it. *)
Inductive Event :=
| CallLog (options : LogOptions)
| CallGetCommit (h : jsstring)
| VisitedAdd (h : jsstring)
| QueuePush (h : jsstring).

(** The variables of the [while] loop of [collectAncestorHashes]. *)
Record LoopState := mkLoopState {
  visited : gset jsstring;
  queue : list jsstring;
  trace : list Event
}.

(** [for (const parent of parents) { ... queue.push(parentHash) ... }] *)
Fixpoint enqueueParents (parentList : list JsValue) (st : LoopState) : LoopState :=
  match parentList with
  | [] => st
  | parent :: rest =>
      match normalizeHash (normalizeParentHash parent) with
      | Some parentHash =>
          if bool_decide (parentHash ∉ visited st)
          then enqueueParents rest
                 (mkLoopState (visited st) (queue st ++ [parentHash])
                              (trace st ++ [QueuePush parentHash]))
          else enqueueParents rest st
      | None => enqueueParents rest st
      end
  end.

(** [Array.isArray(commit.parents) ? commit.parents : []] *)
Definition parentArray (commit : Commit) : list JsValue :=
  match parents commit with
  | JArray elems => elems
  | _ => []
  end.

(** One evaluation of the loop condition followed, when it holds, by one
    execution of the loop body; [None] when the condition fails. *)
Definition step (repo : Repo) (maxCommits : Z) (st : LoopState) : option LoopState :=
  match queue st with
  | [] => None
  | h :: rest =>
      if negb (Z.of_nat (size (visited st)) <? maxCommits) then None
      else if negb (truthyString h) || bool_decide (h ∈ visited st)
      then Some (mkLoopState (visited st) rest (trace st))
      else
        let st' := mkLoopState ({[h]} ∪ visited st) rest
                               (trace st ++ [VisitedAdd h; CallGetCommit h]) in
        match getCommit repo h with
        | Throw => Some st'
        | Ok commit => Some (enqueueParents (parentArray commit) st')
        end
  end.

(** Loop variant: the room left under the cap, then the queue length. *)
Definition variant (maxCommits : Z) (st : LoopState) : nat * nat :=
  (Z.to_nat (maxCommits - Z.of_nat (size (visited st))), length (queue st)).

(** The [while] loop, run to completion. *)
Equations? loop (repo : Repo) (maxCommits : Z) (st : LoopState) : LoopState
  by wf (variant maxCommits st) (lexprod nat nat lt lt) :=
  loop repo maxCommits st
    with Equations.Prop.Logic.inspect (step repo maxCommits st) := {
    | exist _ (Some st') Hstep => loop repo maxCommits st'
    | exist _ None _ => st }.
Proof.
  assert (Henq : ∀ ps s, visited (enqueueParents ps s) = visited s).
  { induction ps as [|p ps IH]; intros s; simpl; [done|].
    destruct (normalizeHash _); [case_bool_decide|]; by rewrite IH. }
  unfold step in Hstep. unfold variant.
  destruct (queue st) as [|h rest] eqn:Hq; [done|].
  destruct (Z.of_nat (size (visited st)) <? maxCommits) eqn:Hlt; [|done].
  apply Z.ltb_lt in Hlt. simpl in Hstep.
  destruct (negb (truthyString h) || bool_decide (h ∈ visited st)) eqn:Hskip.
  - injection Hstep as <-. simpl. right. lia.
  - apply orb_false_iff in Hskip as [_ Hnotin].
    apply bool_decide_eq_false in Hnotin.
    assert (Hsize : size ({[h]} ∪ visited st) = S (size (visited st))).
    { rewrite size_union by (by apply disjoint_singleton_l).
      by rewrite size_singleton. }
    destruct (getCommit repo h); inversion Hstep; subst st'.
    + rewrite Henq. simpl. rewrite Hsize. left. lia.
    + simpl. rewrite Hsize. left. lia.
Qed.

(** At most [n] iterations of the loop. *)
Fixpoint run (repo : Repo) (maxCommits : Z) (n : nat) (st : LoopState) : LoopState :=
  match n with
  | O => st
  | S n' =>
      match step repo maxCommits st with
      | Some st' => run repo maxCommits n' st'
      | None => st
      end
  end.

Definition initialState (startHash : jsstring) : LoopState :=
  mkLoopState ∅
    (match normalizeHash (Some startHash) with
     | Some normalizedStart => [normalizedStart]
     | None => []
     end)
    [].

(** The state in which [collectAncestorHashes] leaves its loop. *)
Definition collectAncestorRun (repo : Repo) (startHash : jsstring)
    (maxCommits : Z) : LoopState :=
  loop repo maxCommits (initialState startHash).

(** [collectAncestorHashes(repo, startHash, maxCommits)] *)
Definition collectAncestorHashes (repo : Repo) (startHash : jsstring)
    (maxCommits : Z) : gset jsstring :=
  visited (collectAncestorRun repo startHash maxCommits).

(** ** Range resolution *)

(** The callback of [headCommits.filter]:
    [hash ? !targetHashes.has(hash) : false] *)
Definition keepHeadCommit (targetHashes : gset jsstring) (commit : Commit) : bool :=
  match normalizeHash (hash commit) with
  | Some h => negb (bool_decide (h ∈ targetHashes))
  | None => false
  end.

(** The body of [getCommitsForSelection], returning its result together
    with the operations performed. *)
Definition getCommitsForSelectionRun (repo : Repo) (selection : RangeSelection)
    : Result (list Commit) * list Event :=
  let options := logOptions in
  match selection with
  | DaysSelection sinceDate _ =>
      match log repo options with
      | Throw => (Throw, [CallLog options])
      | Ok allCommits =>
          (Ok (normalizeCommit <$>
                 filter (λ commit, dateGe (getCommitDate commit) sinceDate = true)
                        allCommits),
           [CallLog options])
      end
  | TagSelection _ _ commitHash | CommitSelection _ commitHash =>
      match log repo options with
      | Throw => (Throw, [CallLog options])
      | Ok headCommits =>
          if bool_decide (length headCommits = 0%nat)
          then (Ok [], [CallLog options])
          else
            let final := collectAncestorRun repo commitHash MAX_LOG_ENTRIES in
            let targetHashes := visited final in
            let headHashes := omap (λ commit, normalizeHash (hash commit)) headCommits in
            let hasCommonAncestor :=
              existsb (λ h, bool_decide (h ∈ targetHashes)) headHashes in
            if negb hasCommonAncestor
            then (Ok [], CallLog options :: trace final)
            else
              let filteredCommits :=
                filter (λ commit, keepHeadCommit targetHashes commit = true)
                       headCommits in
              (Ok (normalizeCommit <$> filteredCommits),
               CallLog options :: trace final)
      end
  end.

(** [getCommitsForSelection(repo, selection)] *)
Definition getCommitsForSelection (repo : Repo) (selection : RangeSelection)
    : Result (list Commit) :=
  (getCommitsForSelectionRun repo selection).1.

Definition getCommitsForSelectionTrace (repo : Repo) (selection : RangeSelection)
    : list Event :=
  (getCommitsForSelectionRun repo selection).2.

(** ** Reading the operation log *)

Definition addedHashes (t : list Event) : list jsstring :=
  omap (λ e, match e with VisitedAdd h => Some h | _ => None end) t.

Definition pushedHashes (t : list Event) : list jsstring :=
  omap (λ e, match e with QueuePush h => Some h | _ => None end) t.

Definition fetchedHashes (t : list Event) : list jsstring :=
  omap (λ e, match e with CallGetCommit h => Some h | _ => None end) t.

(** A log in which every [visited.add] is of an identifier not added
    before, and every [queue.push] is of an identifier not added so far;
    [seen] holds the identifiers added before the log starts. *)
Fixpoint traceOk (seen : gset jsstring) (t : list Event) : Prop :=
  match t with
  | [] => True
  | VisitedAdd h :: t' => (h ∉ seen) ∧ traceOk ({[h]} ∪ seen) t'
  | QueuePush h :: t' => (h ∉ seen) ∧ traceOk seen t'
  | _ :: t' => traceOk seen t'
  end.

(** The identifiers a traversal from [startHash] can discover: the
    normalized start, and every normalized parent named by a commit that was
    fetched successfully. A node whose fetch fails is reachable itself but
    nothing is reachable through it. *)
Inductive reachable (repo : Repo) (startHash : jsstring) : jsstring → Prop :=
| reachable_start s :
    normalizeHash (Some startHash) = Some s → reachable repo startHash s
| reachable_parent h commit parent h' :
    reachable repo startHash h →
    getCommit repo h = Ok commit →
    parent ∈ parentArray commit →
    normalizeHash (normalizeParentHash parent) = Some h' →
    reachable repo startHash h'.

(** ** Vocabulary of the statements *)

(** The target identifier of a tag- or commit-based selection. *)
Definition selectionTarget (selection : RangeSelection) : option jsstring :=
  match selection with
  | DaysSelection _ _ => None
  | TagSelection _ _ commitHash | CommitSelection _ commitHash => Some commitHash
  end.

(** The string stored under [key], when there is one. *)
Definition stringProp (props : gmap string JsValue) (key : string)
    : option jsstring :=
  match props !! key with
  | Some (JString s) => Some s
  | _ => None
  end.

(** A hash field that is present, non-empty and not whitespace-only. *)
Definition usableHash (commit : Commit) : bool :=
  match hash commit with
  | Some s => negb (forallb isWhiteSpace s)
  | None => false
  end.

(** The same repository answering [headLog] to every log fetch. *)
Definition withLog (repo : Repo) (headLog : list Commit) : Repo :=
  mkRepo (λ _, Ok headLog) (getCommit repo).

(** ** An in-memory repository *)

Definition commitOf (h : string) (parentHashes : list string) : Commit :=
  mkCommit (Some (str h)) (JArray ((JString ∘ str) <$> parentHashes))
           (Some (Some 0)) None [] [].

(** A repository whose [log] always answers [headLog] and whose [getCommit]
    looks the identifier up in [store], failing when it is absent. *)
Definition fakeRepo (headLog : list Commit) (store : gmap jsstring Commit) : Repo :=
  mkRepo (λ _, Ok headLog)
         (λ h, match store !! h with Some c => Ok c | None => Throw end).

Definition storeOf (commits : list Commit) : gmap jsstring Commit :=
  list_to_map (omap (λ c, (λ h, (h, c)) <$> (hash c)) commits).

(** The repository's own end-to-end scenario: an initial commit [i0], a
    feature branch with four more commits [f1 .. f4], and [main] advanced by
    one commit [m1] carrying the tag. *)
Definition featureLog : list Commit :=
  [commitOf "f4" ["f3"]; commitOf "f3" ["f2"]; commitOf "f2" ["f1"];
   commitOf "f1" ["i0"]; commitOf "i0" []].

Definition scenarioRepo (headLog : list Commit) : Repo :=
  fakeRepo headLog (storeOf (featureLog ++ [commitOf "m1" ["i0"]])).

Definition scenarioSelection : RangeSelection :=
  TagSelection (Some 0) (str "target-tag") (str "m1").

(** Two histories without a shared root: [x2 -> x1] checked out, [y1]
    selected. *)
Definition disjointRepo : Repo :=
  fakeRepo [commitOf "x2" ["x1"]; commitOf "x1" []]
           (storeOf [commitOf "x2" ["x1"]; commitOf "x1" []; commitOf "y1" []]).

(** ** Normalized identifiers *)

Definition noLeadingWs (s : jsstring) : Prop :=
  match s with
  | [] => True
  | c :: _ => isWhiteSpace c = false
  end.

Definition noTrailingWs (s : jsstring) : Prop := noLeadingWs (reverse s).

(** A normalized identifier: non-empty, no whitespace at either end. *)
Definition normalized (s : jsstring) : Prop :=
  s ≠ [] ∧ noLeadingWs s ∧ noTrailingWs s.

(** ** Loop cases and invariants *)

(** The identifiers the [for] loop pushes, given the visited set it tests. *)
Definition pushedParents (vis : gset jsstring) (parentList : list JsValue)
    : list jsstring :=
  filter (λ h, h ∉ vis)
         (omap (λ parent, normalizeHash (normalizeParentHash parent)) parentList).

(** The three ways an iteration can go. *)
Inductive StepCase (repo : Repo) (st : LoopState) : LoopState → Prop :=
| StepSkip h rest :
    queue st = h :: rest → h = [] ∨ h ∈ visited st →
    StepCase repo st (mkLoopState (visited st) rest (trace st))
| StepFailed h rest :
    queue st = h :: rest → h ≠ [] → h ∉ visited st →
    getCommit repo h = Throw →
    StepCase repo st
      (mkLoopState ({[h]} ∪ visited st) rest
                   (trace st ++ [VisitedAdd h; CallGetCommit h]))
| StepFetched h rest commit :
    queue st = h :: rest → h ≠ [] → h ∉ visited st →
    getCommit repo h = Ok commit →
    StepCase repo st
      (mkLoopState
         ({[h]} ∪ visited st)
         (rest ++ pushedParents ({[h]} ∪ visited st) (parentArray commit))
         ((trace st ++ [VisitedAdd h; CallGetCommit h])
          ++ (QueuePush <$> pushedParents ({[h]} ∪ visited st) (parentArray commit)))).

Definition whitespaceOnly (s : jsstring) : Prop :=
  Forall (λ c, isWhiteSpace c = true) s.

(** A linear history: distinct normalized identifiers, each fetched
    successfully, each commit naming exactly the next identifier as its
    parent and the last one naming none. *)
Definition linearChain (repo : Repo) (chain : list jsstring) : Prop :=
  NoDup chain
  ∧ Forall normalized chain
  ∧ ∀ i h, chain !! i = Some h →
      ∃ commit,
        getCommit repo h = Ok commit
        ∧ omap (λ parent, normalizeHash (normalizeParentHash parent))
               (parentArray commit)
          = option_list (chain !! S i).

(** The loop invariant behind the deduplication: the log is well formed
    and the visited set is the set of identifiers added so far. *)
Definition dedupInv (st : LoopState) : Prop :=
  traceOk ∅ (trace st)
  ∧ visited st = list_to_set (addedHashes (trace st))
  ∧ fetchedHashes (trace st) = addedHashes (trace st).

(** Everything visited or pending was discovered from the start. *)
Definition soundInv (repo : Repo) (startHash : jsstring) (st : LoopState) : Prop :=
  (∀ h, h ∈ visited st → reachable repo startHash h)
  ∧ (∀ h, h ∈ queue st → reachable repo startHash h).

(** The start and every discovered parent is visited or pending. *)
Definition closedInv (repo : Repo) (startHash : jsstring) (st : LoopState) : Prop :=
  (∀ s, normalizeHash (Some startHash) = Some s →
        s ∈ visited st ∨ s ∈ queue st)
  ∧ (∀ h commit parent h',
       h ∈ visited st → getCommit repo h = Ok commit →
       parent ∈ parentArray commit →
       normalizeHash (normalizeParentHash parent) = Some h' →
       h' ∈ visited st ∨ h' ∈ queue st).

(** ** Further fixtures *)


Definition chain3 : list jsstring := [str "c0"; str "c1"; str "c2"].

Definition chainRepo : Repo :=
  fakeRepo [] (storeOf [commitOf "c0" ["c1"]; commitOf "c1" ["c2"]; commitOf "c2" []]).

(** A merge commit [m] whose two parents [a] and [b] share the parent [r]. *)
Definition diamondRepo : Repo :=
  fakeRepo []
    (storeOf [commitOf "m" ["a"; "b"]; commitOf "a" ["r"];
              commitOf "b" ["r"]; commitOf "r" []]).

(** The diamond with the fetch of [a] failing: [m -> a, b], [b -> r]. *)
Definition brokenRepo : Repo :=
  fakeRepo []
    (storeOf [commitOf "m" ["a"; "b"]; commitOf "b" ["r"]; commitOf "r" []]).

Definition datedCommit (h : string) (t : Z) : Commit :=
  mkCommit (Some (str h)) (JArray []) (Some (Some t)) None [] [].

(** The scenario log with a hashless and a whitespace-only commit mixed in. *)
Definition blankLog : list Commit :=
  [mkCommit None (JArray []) None None [] [];
   commitOf "f4" ["f3"]; commitOf "   " []; commitOf "i0" []].

(** ** Callers in the extension *)

(** The selection the extension builds from a commit picked in the log:
    [{ type: 'commit', commitHash: commit.hash, sinceDate:
    getCommitDate(commit) }]. A missing hash is passed on as the empty
    string: [commitHash] is only ever read by [normalizeHash], which answers
    [undefined] for both. *)
Definition commitSelectionOf (commit : Commit) : RangeSelection :=
  CommitSelection (getCommitDate commit) (default [] (hash commit)).

(** Commits of the days fixtures: one whose author date is invalid, one
    carrying no date at all. *)
Definition invalidDateCommit : Commit :=
  mkCommit (Some (str "bad")) (JArray []) (Some None) (Some (Some 5000)) [] [].

Definition undatedCommit : Commit :=
  mkCommit (Some (str "none")) (JArray []) None None [] [].

(** ** Built-ins used by the extension *)

(** [Array.prototype.sort(comparefn)] is stable; for a consistent comparator
    its result is the one stable arrangement, computed here by insertion.
    [after x y] stands for [comparefn(x, y) > 0]: [x] has to come after
    [y]. *)
Fixpoint insertSorted {A} (after : A → A → bool) (x : A) (l : list A) : list A :=
  match l with
  | [] => [x]
  | y :: l' => if after x y then y :: insertSorted after x l' else x :: l
  end.

Definition stableSort {A} (after : A → A → bool) (l : list A) : list A :=
  foldr (insertSorted after) [] l.

(** [a < b] on strings: lexicographic on code units. *)
Fixpoint strLt (a b : jsstring) : bool :=
  match a, b with
  | _, [] => false
  | [], _ :: _ => true
  | x :: a', y :: b' =>
      if (x <? y)%N then true
      else if (y <? x)%N then false
      else strLt a' b'
  end.

(** [[...new Set(values)]]: the values in order of first occurrence. *)
Definition setInsertionOrder (values : list jsstring) : list jsstring :=
  fold_left (λ acc v, if bool_decide (v ∈ acc) then acc else acc ++ [v])
            values [].

(** [hash.slice(0, 7)] or the empty string. *)
Definition shortHash (hash : option jsstring) : jsstring :=
  match hash with
  | Some h => if truthyString h then take 7 h else []
  | None => []
  end.

(** ** The author stage of the summarize command

    A commit's [authorName] that is [undefined] is carried as the empty
    string: the stage reads the name through [filter(Boolean)] and through
    [===] against a non-empty selection only, which treat the two alike. *)

(** [[...new Set(commitsInRange.map(c => c.authorName))].filter(Boolean).sort()] *)
Definition uniqueAuthors (commitsInRange : list Commit) : list jsstring :=
  stableSort (λ x y, strLt y x)
    (filter (λ a, truthyString a = true)
       (setInsertionOrder (authorName <$> commitsInRange))).

Definition allAuthors : jsstring := str "All Authors".

Definition authorOptions (commitsInRange : list Commit) : list jsstring :=
  allAuthors :: uniqueAuthors commitsInRange.

(** [selectedAuthor === 'All Authors' ? commitsInRange :
    commitsInRange.filter(commit => commit.authorName === selectedAuthor)] *)
Definition commitsForSummary (selectedAuthor : jsstring)
    (commitsInRange : list Commit) : list Commit :=
  if bool_decide (selectedAuthor = allAuthors) then commitsInRange
  else filter (λ commit, authorName commit = selectedAuthor) commitsInRange.

Inductive StageOutcome :=
| StageError (msg : string)
| StageCancelled
| StageSummarize (selectedAuthor : jsstring) (commits : list Commit).

(** From the resolved commits to the commits handed to the summarizer;
    [pick] is the user's answer to the quick pick over the options. *)
Definition authorStage (commitsInRange : list Commit)
    (pick : list jsstring → option jsstring) : StageOutcome :=
  if bool_decide (length commitsInRange = 0%nat)
  then StageError "No commits found for the selected range"
  else if bool_decide (length (uniqueAuthors commitsInRange) = 0%nat)
  then StageError "No commits found for the selected range"
  else
    match pick (authorOptions commitsInRange) with
    | None => StageCancelled
    | Some selectedAuthor =>
        if negb (truthyString selectedAuthor) then StageCancelled
        else if bool_decide
                  (length (commitsForSummary selectedAuthor commitsInRange)
                   = 0%nat)
        then StageError "No commits found for the selected author"
        else StageSummarize selectedAuthor
               (commitsForSummary selectedAuthor commitsInRange)
    end.

Definition authoredCommit (h author : string) : Commit :=
  mkCommit (Some (str h)) (JArray []) (Some (Some 0)) None (str author) [].

Definition authoredLog : list Commit :=
  [authoredCommit "a1" "zoe"; authoredCommit "a2" "";
   authoredCommit "a3" "amy"; authoredCommit "a4" "zoe"].

(** ** Tags by recency *)

(** A ref as the git API hands it out; the fields the code reads,
    [name], [ref], [label], [commit], [hash] and [objectId]. *)
Record GitRef := mkGitRef {
  refName : option jsstring;
  refRef : option jsstring;
  refLabel : option jsstring;
  refCommit : option jsstring;
  refHash : option jsstring;
  refObjectId : option jsstring
}.

Record TagInfo := mkTagInfo {
  name : jsstring;
  commitHash : jsstring;
  date : JsDate
}.

(** The repository with its optional [getRefs]; the argument is the [type]
    of the query. *)
Record TagRepo := mkTagRepo {
  tagRepo : Repo;
  getRefs : option (Z → Result (list GitRef))
}.

(** [a || b] for an optional string [a] *)
Definition orElse (a : option jsstring) (b : jsstring) : jsstring :=
  match a with
  | Some s => if truthyString s then s else b
  | None => b
  end.

(** The callback mapped over the refs. *)
Definition tagOfRef (repo : Repo) (ref : GitRef) : TagInfo :=
  let name := orElse (refName ref) (orElse (refRef ref) (orElse (refLabel ref) [])) in
  let commitRef :=
    orElse (refCommit ref) (orElse (refHash ref) (orElse (refObjectId ref) name)) in
  match getCommit repo commitRef with
  | Ok commit => mkTagInfo name (orElse (hash commit) commitRef) (getCommitDate commit)
  | Throw => mkTagInfo name commitRef (Some 0)
  end.

(** [(a, b) => b.date.getTime() - a.date.getTime()] is positive; a NaN
    difference counts as zero. *)
Definition olderThan (a b : TagInfo) : bool :=
  match date a, date b with
  | Some ta, Some tb => 0 <? tb - ta
  | _, _ => false
  end.

(** [getTagsByRecency(repo)] *)
Definition getTagsByRecency (repo : TagRepo) : Result (list TagInfo) :=
  match getRefs repo with
  | None => Ok []
  | Some fetchRefs =>
      match fetchRefs 2 with
      | Throw => Throw
      | Ok refs =>
          let tags := tagOfRef (tagRepo repo) <$> refs in
          Ok (stableSort olderThan
                (filter (λ tag, truthyString (name tag) = true) tags))
      end
  end.

Definition namedRef (n target : string) : GitRef :=
  mkGitRef (Some (str n)) None None (Some (str target)) None None.

Definition taggedRepo : TagRepo :=
  mkTagRepo
    (fakeRepo [] (storeOf [datedCommit "c1" 100; datedCommit "c2" 300]))
    (Some (λ _, Ok [namedRef "v1" "c1"; namedRef "v2" "c2";
                    namedRef "gone" "c9"; namedRef "" "c1"])).

(** ** Dates in file names *)

(** A [Date] as [formatDate] sees it: the answers of [getDate()],
    [getMonth()] and [getFullYear()] in local time. The invalid date, whose
    getters answer NaN, is [None]. *)
Record DateFields := mkDateFields {
  getDate : Z;
  getMonth : Z;
  getFullYear : Z
}.

(** [String(n)] for an integral number or NaN. *)
Definition numberToString (n : option Z) : jsstring :=
  match n with
  | Some z => str (pretty z)
  | None => str "NaN"
  end.

(** [s.padStart(2, '0')] *)
Definition padStart2 (s : jsstring) : jsstring :=
  replicate (2 - length s) 0x30%N ++ s.

(** [formatDate(date, format)] *)
Definition formatDate (date : option DateFields) (format : jsstring) : jsstring :=
  let day := padStart2 (numberToString (getDate <$> date)) in
  let month := padStart2 (numberToString ((λ f, getMonth f + 1) <$> date)) in
  let year := numberToString (getFullYear <$> date) in
  if bool_decide (format = str "DD-MM-YYYY")
  then day ++ str "-" ++ month ++ str "-" ++ year
  else if bool_decide (format = str "MM-DD-YYYY")
  then month ++ str "-" ++ day ++ str "-" ++ year
  else if bool_decide (format = str "YYYY-MM-DD")
  then year ++ str "-" ++ month ++ str "-" ++ day
  else if bool_decide (format = str "YYYY_MM_DD")
  then year ++ str "_" ++ month ++ str "_" ++ day
  else if bool_decide (format = str "DD.MM.YYYY")
  then day ++ str "." ++ month ++ str "." ++ year
  else day ++ str "-" ++ month ++ str "-" ++ year.

(** Getter answers of a date with a four-digit year. *)
Definition fourDigitYearDate (f : DateFields) : Prop :=
  1 ≤ getDate f ≤ 31 ∧ 0 ≤ getMonth f ≤ 11 ∧ 1000 ≤ getFullYear f ≤ 9999.

(** The code unit of a decimal digit. *)
Definition digit (d : Z) : N := Z.to_N (48 + d).

Definition isDateChar (c : N) : Prop :=
  (0x30 ≤ c ≤ 0x39)%N ∨ c = 0x2D%N ∨ c = 0x5F%N ∨ c = 0x2E%N.

(** ** The day span

    [Date.now()] is the argument [now]; time values are whole milliseconds.
    The quotient is taken exactly: the double quotient has the same ceiling
    as long as the span stays below 2^26 days, which the statements
    assume. *)
Definition msInDay : Z := 24 * 60 * 60 * 1000.

(** [calculateDaysSpan(sinceDate)]; [None] is NaN. *)
Definition calculateDaysSpan (now : Z) (sinceDate : JsDate) : option Z :=
  match sinceDate with
  | Some t =>
      let diffMs := now - t in
      Some (Z.max 1 (- ((- diffMs) `div` msInDay)))
  | None => None
  end.

Definition spanInRange (now t : Z) : Prop :=
  Z.abs (now - t) < 2 ^ 26 * msInDay.

(** [selection.type === 'days' ? selection.days :
    calculateDaysSpan(selection.sinceDate)] *)
Definition daysAgoOf (now : Z) (selection : RangeSelection) : option Z :=
  match selection with
  | DaysSelection _ days => Some days
  | TagSelection sinceDate _ _ | CommitSelection sinceDate _ =>
      calculateDaysSpan now sinceDate
  end.

(** ** The test's log parser *)

Definition FIELD_SEPARATOR : N := 0x1f.
Definition RECORD_SEPARATOR : N := 0x1e.

(** [s.split(sep)] for a separator of one code unit. *)
Fixpoint splitOn (sep : N) (s : jsstring) : list jsstring :=
  match s with
  | [] => [[]]
  | c :: s' =>
      if (c =? sep)%N then [] :: splitOn sep s'
      else
        match splitOn sep s' with
        | piece :: pieces => (c :: piece) :: pieces
        | [] => [[c]]
        end
  end.

(** The objects [parseCommits] builds; a field the record did not have is
    [undefined]. *)
Record ParsedCommit := mkParsedCommit {
  parsedHash : option jsstring;
  parsedParents : list jsstring;
  parsedAuthorName : option jsstring;
  parsedAuthorDate : option jsstring;
  parsedMessage : option jsstring
}.

(** The callback mapped over the records. *)
Definition parseRecord (record : jsstring) : ParsedCommit :=
  let fields := splitOn FIELD_SEPARATOR record in
  mkParsedCommit
    (fields !! 0%nat)
    (match fields !! 1%nat with
     | Some parents =>
         if truthyString parents
         then filter (λ p, truthyString p = true) (splitOn 0x20 parents)
         else []
     | None => []
     end)
    (fields !! 2%nat) (fields !! 3%nat) (fields !! 4%nat).

(** [parseCommits(output)] *)
Definition parseCommits (output : jsstring) : list ParsedCommit :=
  parseRecord <$>
    filter (λ record, truthyString record = true)
           (splitOn RECORD_SEPARATOR output).

(** One commit as [git log] prints it under [LOG_FORMAT]:
    [%H\x1f%P\x1f%an\x1f%ad\x1f%s\x1e], the parents joined by spaces.
    [lead] is what precedes the record in the output: nothing for the
    first record, the line break git puts between records for the others. *)
Record LogRecord := mkLogRecord {
  lead : jsstring;
  recHash : jsstring;
  recParents : list jsstring;
  recAuthorName : jsstring;
  recAuthorDate : jsstring;
  recSubject : jsstring
}.

Fixpoint joinSpaces (words : list jsstring) : jsstring :=
  match words with
  | [] => []
  | [w] => w
  | w :: rest => w ++ 0x20%N :: joinSpaces rest
  end.

Definition renderRecord (r : LogRecord) : jsstring :=
  lead r ++ recHash r ++ FIELD_SEPARATOR :: joinSpaces (recParents r)
    ++ FIELD_SEPARATOR :: recAuthorName r
    ++ FIELD_SEPARATOR :: recAuthorDate r
    ++ FIELD_SEPARATOR :: recSubject r ++ [RECORD_SEPARATOR].

(** No field holds a separator; parents are non-empty words. *)
Definition cleanRecord (r : LogRecord) : Prop :=
  Forall (λ field, (FIELD_SEPARATOR ∉ field) ∧ (RECORD_SEPARATOR ∉ field))
         [lead r ++ recHash r; joinSpaces (recParents r); recAuthorName r;
          recAuthorDate r; recSubject r]
  ∧ Forall (λ p, p ≠ [] ∧ 0x20%N ∉ p) (recParents r).

Definition parsedOf (r : LogRecord) : ParsedCommit :=
  mkParsedCommit (Some (lead r ++ recHash r)) (recParents r)
    (Some (recAuthorName r)) (Some (recAuthorDate r)) (Some (recSubject r)).

Definition sampleRecords : list LogRecord :=
  [mkLogRecord [] (str "f2") [str "f1"] (str "Test User") (str "2024") (str "two");
   mkLogRecord [0x0A%N] (str "f1") [] (str "Test User") (str "2023") (str "one")].

(** ** The files line of a commit's summary entry *)

(** A change of a diff: its [status] and the path of its [uri]. *)
Record Change := mkChange {
  status : Z;
  path : jsstring
}.

(** [change.status === 0 ? 'M' : change.status === 1 ? 'A' : 'D'] *)
Definition statusLetter (change : Change) : N :=
  if status change =? 0 then 0x4D%N
  else if status change =? 1 then 0x41%N
  else 0x44%N.

(** [change.uri.path.split('/').pop()] *)
Definition lastSegment (change : Change) : jsstring :=
  default [] (last (splitOn 0x2F (path change))).

(** [changes.map(change => `${status} ${name}`).slice(0, 20)] *)
Definition filesChanged (changes : list Change) : list jsstring :=
  take 20 ((λ change, statusLetter change :: 0x20%N :: lastSegment change)
             <$> changes).

(** [parts.join(', ')] *)
Fixpoint joinComma (parts : list jsstring) : jsstring :=
  match parts with
  | [] => []
  | [p] => p
  | p :: rest => p ++ str ", " ++ joinComma rest
  end.

(** The [filesSummary] of a commit's changes. *)
Definition filesSummary (changes : list Change) : jsstring :=
  if bool_decide (0 < length (filesChanged changes))%nat
  then 0x0A%N :: str "  Files: " ++ joinComma (filesChanged changes)
       ++ (if bool_decide (20 < length changes)%nat
           then str " +" ++ numberToString (Some (Z.of_nat (length changes) - 20))
                ++ str " more"
           else [])
  else [].

(** * Properties *)

(** ** Trimming and normalization *)

Section Trim.
Implicit Types s t : jsstring.

Lemma trimStart_noLeadingWs s : noLeadingWs (trimStart s).
Proof.
  induction s as [|c s IH]; simpl; [done|].
  destruct (isWhiteSpace c) eqn:E; [done|]. exact E.
Qed.

Lemma trimStart_fixed s : noLeadingWs s → trimStart s = s.
Proof. destruct s as [|c s]; simpl; [done|]. by intros ->. Qed.

Lemma trimStart_idemp s : trimStart (trimStart s) = trimStart s.
Proof. apply trimStart_fixed, trimStart_noLeadingWs. Qed.

Lemma trimStart_app_keep s c t :
  isWhiteSpace c = false → trimStart (s ++ c :: t) = trimStart s ++ c :: t.
Proof.
  intros Hc. induction s as [|d s IH]; simpl; [by rewrite Hc|].
  by destruct (isWhiteSpace d).
Qed.

Lemma trimEnd_cons_keep c s :
  isWhiteSpace c = false → trimEnd (c :: s) = c :: trimEnd s.
Proof.
  intros Hc. unfold trimEnd. rewrite reverse_cons.
  rewrite trimStart_app_keep by done.
  by rewrite reverse_app, reverse_singleton.
Qed.

Lemma trimEnd_noLeadingWs s : noLeadingWs s → noLeadingWs (trimEnd s).
Proof.
  destruct s as [|c s]; [done|]. simpl. intros Hc.
  by rewrite trimEnd_cons_keep.
Qed.

Lemma trimEnd_noTrailingWs s : noTrailingWs (trimEnd s).
Proof.
  unfold noTrailingWs, trimEnd. rewrite reverse_involutive.
  apply trimStart_noLeadingWs.
Qed.

Lemma trimEnd_fixed s : noTrailingWs s → trimEnd s = s.
Proof.
  unfold noTrailingWs, trimEnd. intros H.
  by rewrite trimStart_fixed, reverse_involutive.
Qed.

Lemma trim_noLeadingWs s : noLeadingWs (trim s).
Proof. apply trimEnd_noLeadingWs, trimStart_noLeadingWs. Qed.

Lemma trim_noTrailingWs s : noTrailingWs (trim s).
Proof. apply trimEnd_noTrailingWs. Qed.

Lemma trim_fixed s : noLeadingWs s → noTrailingWs s → trim s = s.
Proof.
  intros Hl Ht. unfold trim. by rewrite trimStart_fixed, trimEnd_fixed.
Qed.

Lemma trim_idemp s : trim (trim s) = trim s.
Proof. apply trim_fixed; [apply trim_noLeadingWs|apply trim_noTrailingWs]. Qed.

Lemma trimStart_whitespace s :
  Forall (λ c, isWhiteSpace c = true) s → trimStart s = [].
Proof. induction 1 as [|c s Hc _ IH]; simpl; [done|]. by rewrite Hc. Qed.

Lemma trim_whitespace s :
  Forall (λ c, isWhiteSpace c = true) s → trim s = [].
Proof. intros H. unfold trim. by rewrite trimStart_whitespace. Qed.

Lemma trim_nil_whitespace s :
  trim s = [] → Forall (λ c, isWhiteSpace c = true) s.
Proof.
  unfold trim. induction s as [|c s IH]; simpl; [constructor|].
  destruct (isWhiteSpace c) eqn:E.
  - intros H. constructor; auto.
  - rewrite trimEnd_cons_keep by done. discriminate.
Qed.

Lemma normalizeHash_Some_trim h s :
  normalizeHash h = Some s → ∃ h0, h = Some h0 ∧ s = trim h0 ∧ s ≠ [].
Proof.
  destruct h as [h0|]; simpl; [|done].
  destruct (truthyString h0); simpl; [|done].
  destruct (trim h0) as [|c t] eqn:E; simpl; [done|].
  intros [= <-]. exists h0. by rewrite E.
Qed.

Lemma normalizeHash_normalized h s : normalizeHash h = Some s → normalized s.
Proof.
  intros (h0 & -> & -> & Hne)%normalizeHash_Some_trim.
  split; [done|]. split; [apply trim_noLeadingWs|apply trim_noTrailingWs].
Qed.

Lemma normalizeHash_fixed s : normalized s → normalizeHash (Some s) = Some s.
Proof.
  intros (Hne & Hl & Ht). simpl. rewrite trim_fixed by done.
  by destruct s.
Qed.


Lemma normalizeHash_None_iff s :
  normalizeHash (Some s) = None ↔ Forall (λ c, isWhiteSpace c = true) s.
Proof.
  simpl. split.
  - destruct s as [|c s]; [constructor|]. simpl.
    destruct (trim (c :: s)) eqn:E; simpl; [|done].
    intros _. by apply trim_nil_whitespace.
  - intros H. destruct s as [|c s]; [done|]. simpl.
    by rewrite trim_whitespace.
Qed.
End Trim.

(** ** The loop *)

Lemma loop_step repo maxCommits st :
  loop repo maxCommits st =
  match step repo maxCommits st with
  | Some st' => loop repo maxCommits st'
  | None => st
  end.
Proof.
  funelim (loop repo maxCommits st).
  - by rewrite Hstep.
  - by rewrite e.
Qed.

Lemma run_loop repo maxCommits n st :
  step repo maxCommits (run repo maxCommits n st) = None →
  loop repo maxCommits st = run repo maxCommits n st.
Proof.
  revert st. induction n as [|n IH]; intros st H; simpl in *.
  - by rewrite loop_step, H.
  - rewrite loop_step. destruct (step repo maxCommits st); [by apply IH|done].
Qed.

Lemma loop_terminates repo maxCommits st :
  ∃ n, step repo maxCommits (run repo maxCommits n st) = None
       ∧ loop repo maxCommits st = run repo maxCommits n st.
Proof.
  funelim (loop repo maxCommits st).
  - destruct H as (n & Hn & Hrun). exists (S n). simpl. by rewrite Hstep.
  - exists 0%nat. done.
Qed.

Lemma loop_exit repo maxCommits st :
  step repo maxCommits (loop repo maxCommits st) = None.
Proof. destruct (loop_terminates repo maxCommits st) as (n & H & ->). done. Qed.

Lemma run_invariant (P : LoopState → Prop) repo maxCommits n st :
  (∀ s s', P s → step repo maxCommits s = Some s' → P s') →
  P st → P (run repo maxCommits n st).
Proof.
  intros Hpres. revert st. induction n as [|n IH]; intros st HP; simpl; [done|].
  destruct (step repo maxCommits st) eqn:E; [|done]. eauto.
Qed.

Lemma loop_invariant (P : LoopState → Prop) repo maxCommits st :
  (∀ s s', P s → step repo maxCommits s = Some s' → P s') →
  P st → P (loop repo maxCommits st).
Proof.
  intros Hpres HP. destruct (loop_terminates repo maxCommits st) as (n & _ & ->).
  by apply run_invariant.
Qed.

Lemma enqueueParents_spec parentList st :
  enqueueParents parentList st =
  mkLoopState (visited st)
              (queue st ++ pushedParents (visited st) parentList)
              (trace st ++ (QueuePush <$> pushedParents (visited st) parentList)).
Proof.
  unfold pushedParents. revert st.
  induction parentList as [|p ps IH]; intros [vis q t]; simpl.
  - by rewrite !app_nil_r.
  - destruct (normalizeHash (normalizeParentHash p)) as [ph|]; simpl; [|apply IH].
    rewrite filter_cons.
    destruct (decide (ph ∉ vis)) as [Hin|Hin].
    + rewrite bool_decide_eq_true_2 by done. rewrite IH. simpl.
      by rewrite <- !app_assoc.
    + rewrite bool_decide_eq_false_2 by done. by rewrite IH.
Qed.

Lemma truthyString_false s : truthyString s = false ↔ s = [].
Proof. by destruct s. Qed.

Lemma step_Some repo maxCommits st st' :
  step repo maxCommits st = Some st' ↔
  Z.of_nat (size (visited st)) < maxCommits ∧ StepCase repo st st'.
Proof.
  unfold step. split.
  - destruct (queue st) as [|h rest] eqn:Hq; [done|].
    destruct (Z.ltb_spec (Z.of_nat (size (visited st))) maxCommits) as [Hlt|];
      [|done].
    simpl. intros H. split; [done|].
    destruct (truthyString h) eqn:Ht; simpl in H.
    + assert (h ≠ []) by (by destruct h).
      case_bool_decide.
      * injection H as <-. eapply StepSkip; eauto.
      * destruct (getCommit repo h) as [c|] eqn:Hg; injection H as <-.
        -- rewrite enqueueParents_spec. simpl. by eapply StepFetched.
        -- by eapply StepFailed.
    + apply truthyString_false in Ht. injection H as <-.
      eapply StepSkip; eauto.
  - intros [Hlt Hcase]. apply Z.ltb_lt in Hlt.
    destruct Hcase as [h rest Hq Hskip|h rest Hq Hne Hnin Hg|h rest c Hq Hne Hnin Hg];
      rewrite Hq, Hlt; simpl.
    + destruct Hskip as [->|Hin]; [done|].
      rewrite (bool_decide_eq_true_2 _ Hin). by rewrite orb_true_r.
    + destruct h; [done|]. simpl.
      by rewrite (bool_decide_eq_false_2 _ Hnin), Hg.
    + destruct h; [done|]. simpl.
      rewrite (bool_decide_eq_false_2 _ Hnin), Hg.
      by rewrite enqueueParents_spec.
Qed.

Lemma step_None repo maxCommits st :
  step repo maxCommits st = None ↔
  queue st = [] ∨ maxCommits ≤ Z.of_nat (size (visited st)).
Proof.
  unfold step. destruct (queue st) as [|h rest]; [naive_solver|].
  destruct (Z.ltb_spec (Z.of_nat (size (visited st))) maxCommits); simpl.
  - split; [|intros [?|?]; [done|lia]].
    destruct (negb (truthyString h) || bool_decide (h ∈ visited st)); [done|].
    by destruct (getCommit repo h).
  - naive_solver.
Qed.

(** ** Normalization and the empty start *)



(** ** Termination and the cap *)

Lemma step_size_bound repo maxCommits s s' :
  Z.of_nat (size (visited s)) ≤ maxCommits →
  step repo maxCommits s = Some s' →
  Z.of_nat (size (visited s')) ≤ maxCommits.
Proof.
  intros Hle [Hlt Hcase]%step_Some.
  destruct Hcase as [h rest Hq Hskip|h rest Hq Hne Hnin Hg|h rest c Hq Hne Hnin Hg];
    simpl; [done| |];
    rewrite size_union by (by apply disjoint_singleton_l);
    rewrite size_singleton; lia.
Qed.

Lemma chain_prefix_size (chain : list jsstring) j :
  NoDup chain → (j ≤ length chain)%nat →
  size (list_to_set (take j chain) : gset jsstring) = j.
Proof.
  intros Hnd Hj. rewrite size_list_to_set.
  - rewrite length_take. lia.
  - rewrite <- (take_drop j chain) in Hnd. by apply NoDup_app in Hnd as [? _].
Qed.

Lemma chain_not_in_prefix (chain : list jsstring) j h :
  NoDup chain → chain !! j = Some h → h ∉ take j chain.
Proof.
  intros Hnd Hj Hin.
  apply list_elem_of_lookup in Hin as [i Hi].
  apply lookup_take_Some in Hi as [Hi Hlt].
  pose proof (NoDup_lookup _ _ _ _ Hnd Hi Hj). lia.
Qed.

Lemma chain_loop repo maxCommits chain :
  linearChain repo chain →
  ∀ d j t, (j + d = length chain)%nat → Z.of_nat j ≤ maxCommits →
    visited (loop repo maxCommits
               (mkLoopState (list_to_set (take j chain))
                            (option_list (chain !! j)) t))
    = list_to_set (take (Z.to_nat maxCommits `min` length chain) chain).
Proof.
  intros (Hnd & Hnorm & Hparents).
  induction d as [|d IH]; intros j t Hlen Hj.
  - rewrite loop_step.
    assert (chain !! j = None) as -> by (apply lookup_ge_None; lia).
    simpl. do 2 f_equal. lia.
  - destruct (chain !! j) as [h|] eqn:Hh;
      [|apply lookup_ge_None in Hh; lia].
    rewrite loop_step.
    destruct (decide (Z.of_nat j = maxCommits)) as [Heq|Hne].
    + assert (Hnone : step repo maxCommits
          (mkLoopState (list_to_set (take j chain)) (option_list (Some h)) t) = None).
      { apply step_None. right. simpl. rewrite chain_prefix_size by (done || lia). lia. }
      rewrite Hnone. simpl. do 2 f_equal. lia.
    + destruct (Hparents j h Hh) as (c & Hg & Hps).
      assert (Hfresh : h ∉ (list_to_set (take j chain) : gset jsstring)).
      { rewrite elem_of_list_to_set. by apply chain_not_in_prefix. }
      assert (Hh0 : h ≠ []).
      { apply (Forall_lookup_1 _ _ _ _ Hnorm Hh). }
      assert (Hvis : ({[h]} ∪ list_to_set (take j chain) : gset jsstring)
                     = list_to_set (take (S j) chain)).
      { rewrite (take_S_r _ _ _ Hh), list_to_set_app_L. simpl.
        rewrite union_empty_r_L. apply (comm_L (∪)). }
      assert (Hpush : pushedParents ({[h]} ∪ list_to_set (take j chain))
                        (parentArray c) = option_list (chain !! S j)).
      { unfold pushedParents. rewrite Hps, Hvis.
        destruct (chain !! S j) as [h'|] eqn:Hh'; simpl; [|done].
        rewrite filter_cons, decide_True; [done|].
        rewrite elem_of_list_to_set. by apply chain_not_in_prefix. }
      assert (Hsome : step repo maxCommits
          (mkLoopState (list_to_set (take j chain)) (option_list (Some h)) t)
          = Some (mkLoopState (list_to_set (take (S j) chain))
                              (option_list (chain !! S j))
                              ((t ++ [VisitedAdd h; CallGetCommit h])
                               ++ (QueuePush <$> option_list (chain !! S j))))).
      { apply step_Some. split.
        - simpl. rewrite chain_prefix_size by (done || lia). lia.
        - rewrite <- Hvis, <- Hpush at 1. rewrite <- Hpush at 1.
          exact (StepFetched repo
                   (mkLoopState (list_to_set (take j chain)) [h] t)
                   h [] c eq_refl Hh0 Hfresh Hg). }
      rewrite Hsome. apply IH; lia.
Qed.

(** C3: [collectAncestorHashes] leaves its loop after finitely many
    iterations for every repository (the parent function is arbitrary, so
    cyclic and infinite histories are included) and every cap; with a
    non-negative cap the returned set has at most [maxCommits] elements (a
    cap of zero or less leaves it empty); and on a linear chain of
    [maxCommits + k] commits ([k > 0]) whose fetches all succeed, started at
    the head of the chain, it returns exactly the first [maxCommits]
    identifiers of the chain. *)
Theorem collectAncestorHashes_terminates_bounded repo startHash maxCommits :
  (∃ n, step repo maxCommits
          (run repo maxCommits n (initialState startHash)) = None
        ∧ collectAncestorRun repo startHash maxCommits
          = run repo maxCommits n (initialState startHash))
  ∧ (0 ≤ maxCommits →
     Z.of_nat (size (collectAncestorHashes repo startHash maxCommits)) ≤ maxCommits)
  ∧ (maxCommits ≤ 0 → collectAncestorHashes repo startHash maxCommits = ∅)
  ∧ (∀ chain k,
       0 ≤ maxCommits → (0 < k)%nat →
       length chain = (Z.to_nat maxCommits + k)%nat →
       linearChain repo chain →
       normalizeHash (Some startHash) = head chain →
       collectAncestorHashes repo startHash maxCommits
         = list_to_set (take (Z.to_nat maxCommits) chain)
       ∧ Z.of_nat (size (collectAncestorHashes repo startHash maxCommits))
         = maxCommits).
Proof.
  split; [apply loop_terminates|]. split.
  - intros Hpos. unfold collectAncestorHashes, collectAncestorRun.
    apply (loop_invariant (λ s, Z.of_nat (size (visited s)) ≤ maxCommits)).
    + apply step_size_bound.
    + change (Z.of_nat (size (∅ : gset jsstring)) ≤ maxCommits).
      rewrite size_empty. lia.
  - split.
    { intros Hneg. unfold collectAncestorHashes, collectAncestorRun.
      assert (Hexit : step repo maxCommits (initialState startHash) = None).
      { apply step_None. right.
        change (maxCommits ≤ Z.of_nat (size (∅ : gset jsstring))).
        rewrite size_empty. lia. }
      by rewrite loop_step, Hexit. }
    intros chain k Hpos Hk Hlen Hchain Hstart.
    assert (Hres : collectAncestorHashes repo startHash maxCommits
                   = list_to_set (take (Z.to_nat maxCommits) chain)).
    { unfold collectAncestorHashes, collectAncestorRun, initialState.
      rewrite Hstart, head_lookup.
      pose proof (chain_loop repo maxCommits chain Hchain (length chain) 0 []
                    eq_refl Hpos) as Hloop.
      simpl in Hloop.
      replace (Z.to_nat maxCommits `min` length chain)%nat
        with (Z.to_nat maxCommits) in Hloop by lia.
      rewrite <- Hloop. by destruct (chain !! 0%nat). }
    split; [done|]. rewrite Hres.
    rewrite chain_prefix_size; [lia|apply Hchain|lia].
Qed.

Lemma normalized_iff s : normalized s ↔ normalizeHash (Some s) = Some s.
Proof. split; [apply normalizeHash_fixed|apply normalizeHash_normalized]. Qed.

Lemma chainRepo_linear : linearChain chainRepo chain3.
Proof.
  split; [|split].
  - apply (bool_decide_unpack _). vm_compute. exact I.
  - repeat constructor; by apply normalized_iff.
  - intros [|[|[|i]]] h; simpl; intros [= <-];
      eexists; (split; [vm_compute; reflexivity|reflexivity]).
Qed.

Lemma collectAncestorHashes_terminates_bounded_witness :
  collectAncestorHashes chainRepo (str "c0") 2 = list_to_set (take 2 chain3)
  ∧ Z.of_nat (size (collectAncestorHashes chainRepo (str "c0") 2)) = 2.
Proof.
  apply (proj2 (proj2 (proj2
    (collectAncestorHashes_terminates_bounded chainRepo (str "c0") 2)))
    chain3 1%nat).
  - lia.
  - lia.
  - reflexivity.
  - exact chainRepo_linear.
  - reflexivity.
Defined.

(** ** Deduplication during the traversal *)

Lemma addedHashes_app t1 t2 :
  addedHashes (t1 ++ t2) = addedHashes t1 ++ addedHashes t2.
Proof. apply omap_app. Qed.

Lemma addedHashes_pushes ps : addedHashes (QueuePush <$> ps) = [].
Proof. induction ps; simpl; done. Qed.

Lemma traceOk_app seen t1 t2 :
  traceOk seen (t1 ++ t2) ↔
  traceOk seen t1 ∧ traceOk (list_to_set (addedHashes t1) ∪ seen) t2.
Proof.
  revert seen. induction t1 as [|e t1 IH]; intros seen; simpl.
  - rewrite union_empty_l_L. naive_solver.
  - destruct e as [o|h|h|h]; simpl; rewrite ?IH;
      [done|done| |naive_solver].
    replace (list_to_set (addedHashes t1) ∪ ({[h]} ∪ seen))
      with ({[h]} ∪ list_to_set (addedHashes t1) ∪ seen); [naive_solver|].
    rewrite (comm_L (∪) {[h]}). by rewrite (assoc_L (∪)).
Qed.

Lemma traceOk_pushes seen ps :
  Forall (λ h, h ∉ seen) ps → traceOk seen (QueuePush <$> ps).
Proof. induction 1; simpl; auto. Qed.

Lemma traceOk_weaken seen seen' t : seen' ⊆ seen → traceOk seen t → traceOk seen' t.
Proof.
  revert seen seen'. induction t as [|e t IH]; intros seen seen' Hsub; simpl; [done|].
  destruct e as [o|h|h|h]; eauto.
  - intros [Hnin Hok]. split; [set_solver|].
    apply (IH ({[h]} ∪ seen)); [set_solver|done].
  - intros [Hnin Hok]. split; [set_solver|]. eauto.
Qed.

Lemma traceOk_added_fresh seen t h :
  traceOk seen t → h ∈ addedHashes t → h ∉ seen.
Proof.
  revert seen. induction t as [|e t IH]; intros seen; simpl; [by inversion 2|].
  destruct e as [o|hf|ha|hp]; simpl; eauto.
  - intros [Hnin Hok] [->|Hin]%elem_of_cons; [done|].
    specialize (IH _ Hok Hin). set_solver.
  - intros [_ Hok]. eauto.
Qed.

Lemma traceOk_NoDup_added seen t : traceOk seen t → NoDup (addedHashes t).
Proof.
  revert seen. induction t as [|e t IH]; intros seen; simpl; [constructor|].
  destruct e as [o|h|h|h]; simpl; eauto; [|naive_solver].
  intros [Hnin Hok]. constructor; [|eauto].
  intros Hin. pose proof (traceOk_added_fresh _ _ _ Hok Hin). set_solver.
Qed.

Lemma traceOk_pushed_fresh seen t h :
  traceOk seen t → QueuePush h ∈ t → h ∉ seen.
Proof.
  revert seen. induction t as [|e t IH]; intros seen; simpl; [by inversion 2|].
  intros Hok [<-|Hin]%elem_of_cons; [simpl in Hok; naive_solver|].
  destruct e as [o|hf|ha|hp]; simpl in Hok.
  - eauto.
  - eauto.
  - destruct Hok as [_ Hok]. specialize (IH _ Hok Hin). set_solver.
  - naive_solver.
Qed.

Lemma traceOk_no_push_after_add seen t t1 t2 h :
  traceOk seen t → t = t1 ++ QueuePush h :: t2 → VisitedAdd h ∉ t1.
Proof.
  revert seen t1. induction t as [|e t IH]; intros seen t1 Hok Heq.
  - by destruct t1.
  - destruct t1 as [|e1 t1]; [by inversion 1|].
    simplify_eq/=.
    intros [He|Hin]%elem_of_cons.
    + subst e1. destruct Hok as [_ Hok].
      assert (Hp : QueuePush h ∈ t1 ++ QueuePush h :: t2).
      { apply elem_of_app. right. constructor. }
      pose proof (traceOk_pushed_fresh _ _ _ Hok Hp). set_solver.
    + assert (Hok' : ∃ seen', traceOk seen' (t1 ++ QueuePush h :: t2)).
      { destruct e1 as [o|hf|ha|hp]; simpl in Hok; naive_solver. }
      destruct Hok' as [seen' Hok']. by eapply IH.
Qed.

Lemma fetchedHashes_app t1 t2 :
  fetchedHashes (t1 ++ t2) = fetchedHashes t1 ++ fetchedHashes t2.
Proof. apply omap_app. Qed.

Lemma fetchedHashes_pushes ps : fetchedHashes (QueuePush <$> ps) = [].
Proof. induction ps; simpl; done. Qed.

Lemma pushedParents_fresh vis ps : Forall (λ h, h ∉ vis) (pushedParents vis ps).
Proof. unfold pushedParents. apply Forall_forall. by intros h [? _]%list_elem_of_filter. Qed.

Lemma dedupInv_step repo maxCommits s s' :
  dedupInv s → step repo maxCommits s = Some s' → dedupInv s'.
Proof.
  intros (Hok & Hvis & Hfetch) [_ Hcase]%step_Some.
  assert (Hadd : ∀ h, h ∉ visited s →
    traceOk ∅ (trace s ++ [VisitedAdd h; CallGetCommit h])
    ∧ {[h]} ∪ visited s
      = list_to_set (addedHashes (trace s ++ [VisitedAdd h; CallGetCommit h]))
    ∧ fetchedHashes (trace s ++ [VisitedAdd h; CallGetCommit h])
      = addedHashes (trace s ++ [VisitedAdd h; CallGetCommit h])).
  { intros h Hnin. split; [|split].
    - apply traceOk_app. split; [done|]. simpl.
      rewrite union_empty_r_L, <- Hvis. done.
    - rewrite addedHashes_app, list_to_set_app_L, <- Hvis. simpl.
      rewrite union_empty_r_L. apply (comm_L (∪)).
    - rewrite addedHashes_app, fetchedHashes_app, Hfetch. done. }
  destruct Hcase as [h rest Hq Hskip|h rest Hq Hne Hnin Hg|h rest c Hq Hne Hnin Hg];
    unfold dedupInv; simpl.
  - done.
  - by apply Hadd.
  - destruct (Hadd h Hnin) as (Hok' & Hvis' & Hfetch').
    rewrite addedHashes_app, fetchedHashes_app, addedHashes_pushes,
      fetchedHashes_pushes, !app_nil_r.
    split; [|done].
    apply traceOk_app. split; [done|].
    rewrite union_empty_r_L, <- Hvis'. apply traceOk_pushes, pushedParents_fresh.
Qed.

Lemma dedupInv_run repo startHash maxCommits :
  dedupInv (collectAncestorRun repo startHash maxCommits).
Proof.
  unfold collectAncestorRun.
  apply loop_invariant; [apply dedupInv_step|].
  unfold dedupInv, initialState. simpl. done.
Qed.

(** C2 (amended): during a call of [collectAncestorHashes] each identifier
    is added to the visited set at most once (and fetched at most once, so a
    node's parent list is enqueued in one batch only), and an identifier is
    pushed onto the queue only while it is not yet in the visited set: no
    push of an identifier follows its addition. An identifier that is still
    pending may be pushed again; the duplicate is dropped when dequeued. *)
Theorem collectAncestorHashes_dedup repo startHash maxCommits :
  let t := trace (collectAncestorRun repo startHash maxCommits) in
  NoDup (addedHashes t)
  ∧ NoDup (fetchedHashes t)
  ∧ collectAncestorHashes repo startHash maxCommits = list_to_set (addedHashes t)
  ∧ ∀ t1 t2 h, t = t1 ++ QueuePush h :: t2 → VisitedAdd h ∉ t1.
Proof.
  destruct (dedupInv_run repo startHash maxCommits) as (Hok & Hvis & Hfetch).
  simpl. split; [by eapply traceOk_NoDup_added|].
  split; [rewrite Hfetch; by eapply traceOk_NoDup_added|].
  split; [done|].
  intros t1 t2 h Heq. by eapply traceOk_no_push_after_add.
Qed.

Lemma diamond_run :
  collectAncestorRun diamondRepo (str "m") MAX_LOG_ENTRIES
  = run diamondRepo MAX_LOG_ENTRIES 5 (initialState (str "m")).
Proof. apply run_loop. vm_compute. reflexivity. Qed.

(** C2 as stated fails: in the diamond, [r] is pushed when [a] is processed
    and again when [b] is processed, since it is not yet visited. *)
Lemma collectAncestorHashes_pushes_twice :
  pushedHashes (trace (collectAncestorRun diamondRepo (str "m") MAX_LOG_ENTRIES))
  = [str "a"; str "b"; str "r"; str "r"]
  ∧ ¬ NoDup (pushedHashes
               (trace (collectAncestorRun diamondRepo (str "m") MAX_LOG_ENTRIES))).
Proof.
  rewrite diamond_run.
  assert (Heq : pushedHashes
            (trace (run diamondRepo MAX_LOG_ENTRIES 5 (initialState (str "m"))))
          = [str "a"; str "b"; str "r"; str "r"]) by (vm_compute; reflexivity).
  rewrite Heq. split; [done|].
  intros Hnd. apply NoDup_cons in Hnd as [_ Hnd].
  apply NoDup_cons in Hnd as [_ Hnd]. apply NoDup_cons in Hnd as [Hnin _].
  apply Hnin. constructor.
Qed.

Lemma collectAncestorHashes_dedup_witness :
  let t := trace (collectAncestorRun diamondRepo (str "m") MAX_LOG_ENTRIES) in
  t = take 9 t ++ QueuePush (str "r") :: drop 10 t
  ∧ VisitedAdd (str "r") ∉ take 9 t.
Proof.
  assert (Heq :
    let t := trace (collectAncestorRun diamondRepo (str "m") MAX_LOG_ENTRIES) in
    t = take 9 t ++ QueuePush (str "r") :: drop 10 t).
  { rewrite diamond_run. vm_compute. reflexivity. }
  split; [exact Heq|].
  exact (proj2 (proj2 (proj2
    (collectAncestorHashes_dedup diamondRepo (str "m") MAX_LOG_ENTRIES)))
    _ _ _ Heq).
Defined.

(** ** Fetch failures during the traversal *)

Section Reachability.
Context (repo : Repo) (startHash : jsstring) (maxCommits : Z).

Lemma elem_of_pushedParents vis parentList h' :
  h' ∈ pushedParents vis parentList ↔
  (h' ∉ vis) ∧ (∃ parent, parent ∈ parentList
                 ∧ normalizeHash (normalizeParentHash parent) = Some h').
Proof.
  unfold pushedParents. rewrite list_elem_of_filter, list_elem_of_omap.
  done.
Qed.

Lemma soundInv_step s s' :
  soundInv repo startHash s → step repo maxCommits s = Some s' →
  soundInv repo startHash s'.
Proof.
  intros [Hvis Hq] [_ Hcase]%step_Some.
  destruct Hcase as [h rest Hqe Hskip|h rest Hqe Hne Hnin Hg|h rest c Hqe Hne Hnin Hg];
    rewrite Hqe in Hq; split; simpl.
  - done.
  - intros x Hx. apply Hq. by right.
  - intros x [->%elem_of_singleton|Hx]%elem_of_union; [apply Hq; by left|eauto].
  - intros x Hx. apply Hq. by right.
  - intros x [->%elem_of_singleton|Hx]%elem_of_union; [apply Hq; by left|eauto].
  - intros x [Hx|Hx]%elem_of_app; [apply Hq; by right|].
    apply elem_of_pushedParents in Hx as (_ & p & Hp & Hnorm).
    eapply reachable_parent; [apply Hq; by left|done..].
Qed.

Lemma closedInv_step s s' :
  closedInv repo startHash s → step repo maxCommits s = Some s' →
  closedInv repo startHash s'.
Proof.
  intros [Hstart Hedge] [_ Hcase]%step_Some.
  assert (Hkeep : ∀ x h rest vis' q',
    queue s = h :: rest → x ≠ [] →
    (h = [] ∨ h ∈ vis') → visited s ⊆ vis' → rest ⊆ q' →
    x ∈ visited s ∨ x ∈ queue s → x ∈ vis' ∨ x ∈ q').
  { intros x h rest vis' q' Hqe Hx Hh Hsub Hsubq [Hin|Hin]; [left; set_solver|].
    rewrite Hqe in Hin. apply elem_of_cons in Hin as [->|Hin].
    - destruct Hh; [done|by left].
    - right. by apply Hsubq. }
  assert (Hnonempty : ∀ o x, normalizeHash o = Some x → x ≠ []).
  { intros o x Hx. by apply normalizeHash_normalized in Hx as [? _]. }
  destruct Hcase as [h rest Hqe Hskip|h rest Hqe Hne Hnin Hg|h rest c Hqe Hne Hnin Hg];
    split; cbn [visited queue trace].
  - intros x Hx. eapply Hkeep; eauto.
  - intros x c p h' Hin Hg Hp Hnorm. eapply Hkeep; eauto.
  - intros x Hx. eapply (Hkeep x h rest); eauto; set_solver.
  - intros x c p h' [->%elem_of_singleton|Hin]%elem_of_union Hg' Hp Hnorm;
      [congruence|].
    eapply (Hkeep h' h rest); eauto; set_solver.
  - intros x Hx. eapply (Hkeep x h rest); eauto; set_solver.
  - intros x c' p h' [->%elem_of_singleton|Hin]%elem_of_union Hg' Hp Hnorm.
    + assert (c' = c) as -> by congruence.
      destruct (decide (h' ∈ ({[h]} ∪ visited s : gset jsstring))) as [|Hfresh];
        [by left|].
      right. apply elem_of_app. right. apply elem_of_pushedParents. eauto.
    + eapply (Hkeep h' h rest); eauto; set_solver.
Qed.

Lemma collect_sound h :
  h ∈ collectAncestorHashes repo startHash maxCommits →
  reachable repo startHash h.
Proof.
  assert (Hinv : soundInv repo startHash
                   (collectAncestorRun repo startHash maxCommits)).
  { unfold collectAncestorRun. apply loop_invariant; [apply soundInv_step|].
    unfold soundInv, initialState. cbn [visited queue].
    split; [set_solver|].
    intros x Hx. apply reachable_start.
    destruct (normalizeHash (Some startHash)); set_solver. }
  apply Hinv.
Qed.

Lemma collect_complete h :
  Z.of_nat (size (collectAncestorHashes repo startHash maxCommits)) < maxCommits →
  reachable repo startHash h →
  h ∈ collectAncestorHashes repo startHash maxCommits.
Proof.
  intros Hsize Hreach.
  assert (Hinv : closedInv repo startHash
                   (collectAncestorRun repo startHash maxCommits)).
  { unfold collectAncestorRun. apply loop_invariant; [apply closedInv_step|].
    unfold closedInv, initialState. cbn [visited queue].
    split; [|set_solver].
    intros s ->. right. constructor. }
  assert (Hq : queue (collectAncestorRun repo startHash maxCommits) = []).
  { pose proof (loop_exit repo maxCommits (initialState startHash)) as Hexit.
    apply step_None in Hexit as [Hq|Hcap]; [done|].
    unfold collectAncestorHashes, collectAncestorRun in Hsize. lia. }
  destruct Hinv as [Hstart Hedge]. rewrite Hq in Hstart, Hedge.
  unfold collectAncestorHashes.
  induction Hreach as [s Hs|h c p h' _ IH Hg Hp Hnorm].
  - destruct (Hstart s Hs) as [|Hin]; [done|by inversion Hin].
  - destruct (Hedge h c p h' IH Hg Hp Hnorm) as [|Hin]; [done|by inversion Hin].
Qed.
End Reachability.

(** C4: a failing [getCommit] is absorbed by the traversal. The iteration
    that dequeues a fresh identifier whose fetch fails records it as visited
    and leaves the rest of the queue as it is (no parent is pushed); the
    function is total and returns a set. That set contains only identifiers
    reachable from the start through successfully fetched commits and, when
    the cap was not hit, all of them: in particular the failing node itself
    and every identifier reachable along paths that avoid it. *)
Theorem collectAncestorHashes_absorbs_fetch_failure repo startHash maxCommits :
  (∀ st h rest,
     queue st = h :: rest →
     Z.of_nat (size (visited st)) < maxCommits →
     h ≠ [] → h ∉ visited st →
     getCommit repo h = Throw →
     step repo maxCommits st
     = Some (mkLoopState ({[h]} ∪ visited st) rest
                         (trace st ++ [VisitedAdd h; CallGetCommit h])))
  ∧ (∀ h, h ∈ collectAncestorHashes repo startHash maxCommits →
          reachable repo startHash h)
  ∧ (Z.of_nat (size (collectAncestorHashes repo startHash maxCommits)) < maxCommits →
     ∀ h, reachable repo startHash h →
          h ∈ collectAncestorHashes repo startHash maxCommits)
  ∧ (∀ bound : gset jsstring,
       (∀ h, reachable repo startHash h → h ∈ bound) →
       Z.of_nat (size bound) < maxCommits →
       ∀ h, h ∈ collectAncestorHashes repo startHash maxCommits
            ↔ reachable repo startHash h).
Proof.
  split; [|split; [|split]].
  - intros st h rest Hq Hlt Hne Hnin Hg. apply step_Some. split; [done|].
    by eapply StepFailed.
  - apply collect_sound.
  - intros Hsize h. by apply collect_complete.
  - intros bound Hbound Hsize h. split; [apply collect_sound|].
    apply collect_complete.
    assert (collectAncestorHashes repo startHash maxCommits ⊆ bound) as Hsub.
    { intros x Hx. by apply Hbound, collect_sound with maxCommits. }
    apply subseteq_size in Hsub. lia.
Qed.

Lemma broken_run :
  collectAncestorRun brokenRepo (str "m") MAX_LOG_ENTRIES
  = run brokenRepo MAX_LOG_ENTRIES 4 (initialState (str "m")).
Proof. apply run_loop. vm_compute. reflexivity. Qed.

Lemma broken_reachable_r : reachable brokenRepo (str "m") (str "r").
Proof.
  eapply (reachable_parent _ _ (str "b") (commitOf "b" ["r"]) (JString (str "r")));
    [|reflexivity|by left|reflexivity].
  eapply (reachable_parent _ _ (str "m") (commitOf "m" ["a"; "b"]) (JString (str "b")));
    [|reflexivity|by right; left|reflexivity].
  by apply reachable_start.
Qed.

Lemma collectAncestorHashes_absorbs_fetch_failure_witness :
  getCommit brokenRepo (str "a") = Throw
  ∧ str "a" ∈ collectAncestorHashes brokenRepo (str "m") MAX_LOG_ENTRIES
  ∧ str "r" ∈ collectAncestorHashes brokenRepo (str "m") MAX_LOG_ENTRIES.
Proof.
  assert (Hsize :
    Z.of_nat (size (collectAncestorHashes brokenRepo (str "m") MAX_LOG_ENTRIES))
    < MAX_LOG_ENTRIES).
  { unfold collectAncestorHashes. rewrite broken_run. vm_compute. reflexivity. }
  pose proof (proj1 (proj2 (proj2
    (collectAncestorHashes_absorbs_fetch_failure brokenRepo (str "m")
       MAX_LOG_ENTRIES))) Hsize) as Hall.
  split; [reflexivity|]. split.
  - apply Hall.
    eapply (reachable_parent _ _ (str "m") (commitOf "m" ["a"; "b"])
              (JString (str "a"))); [|reflexivity|by left|reflexivity].
    by apply reachable_start.
  - apply Hall, broken_reachable_r.
Defined.

(** ** Parent identifier extraction *)

Lemma getProp_stringProp props key :
  match getProp (JObject props) key with JString s => Some s | _ => None end
  = stringProp props key.
Proof. unfold getProp, stringProp. by destruct (props !! key) as [[]|]. Qed.

Lemma normalizeParentHash_object props :
  normalizeParentHash (JObject props) =
  match stringProp props "hash" with
  | Some s => Some s
  | None =>
      match stringProp props "sha" with
      | Some s => Some s
      | None => stringProp props "commit"
      end
  end.
Proof.
  unfold normalizeParentHash. cbn [truthy negb].
  rewrite <- !getProp_stringProp.
  destruct (getProp (JObject props) "hash"); try done;
    destruct (getProp (JObject props) "sha"); try done;
    by destruct (getProp (JObject props) "commit").
Qed.

(** C9: [normalizeParentHash] returns a bare (non-empty) string as it is
    (the empty string is no identifier either way once normalized), and for
    an object the string stored under ["hash"], else under ["sha"],
    else under ["commit"] (the first of the three keys holding a string
    wins, no other key is consulted); an object with none of the three keys
    yields no identifier, and a parent that yields none is skipped by the
    enqueueing loop, which goes on with the remaining parents. *)
Theorem normalizeParentHash_representations :
  (∀ s, s ≠ [] → normalizeParentHash (JString s) = Some s)
  ∧ (∀ s, normalizeHash (normalizeParentHash (JString s)) = normalizeHash (Some s))
  ∧ (∀ props,
       normalizeParentHash (JObject props) =
       match stringProp props "hash" with
       | Some s => Some s
       | None =>
           match stringProp props "sha" with
           | Some s => Some s
           | None => stringProp props "commit"
           end
       end)
  ∧ (∀ props key v,
       key ≠ "hash" → key ≠ "sha" → key ≠ "commit" →
       normalizeParentHash (JObject (<[key:=v]> props))
       = normalizeParentHash (JObject props))
  ∧ (∀ props,
       props !! "hash" = None → props !! "sha" = None →
       props !! "commit" = None →
       normalizeParentHash (JObject props) = None)
  ∧ (∀ parent rest st,
       normalizeParentHash parent = None →
       enqueueParents (parent :: rest) st = enqueueParents rest st).
Proof.
  split; [by intros [|c s]|].
  split; [by intros [|c s]|].
  split; [apply normalizeParentHash_object|].
  split; [|split].
  - intros props key v H1 H2 H3. rewrite !normalizeParentHash_object.
    unfold stringProp. by rewrite !lookup_insert_ne.
  - intros props H1 H2 H3. rewrite normalizeParentHash_object.
    unfold stringProp. by rewrite H1, H2, H3.
  - intros parent rest st H. cbn [enqueueParents]. by rewrite H.
Qed.

Lemma normalizeParentHash_representations_witness :
  normalizeParentHash (JString (str "abc")) = Some (str "abc")
  ∧ normalizeParentHash (JObject {["name" := JString (str "abc")]}) = None.
Proof.
  split.
  - apply (proj1 normalizeParentHash_representations). discriminate.
  - apply (proj1 (proj2 (proj2 (proj2 (proj2
             normalizeParentHash_representations))))); reflexivity.
Defined.

(** ** Range resolution: the days variant *)

Lemma normalizeCommit_dates c :
  authorDate (normalizeCommit c) = authorDate c
  ∧ commitDate (normalizeCommit c) = commitDate c.
Proof.
  unfold normalizeCommit. destruct (normalizeHash (hash c)); [|done].
  by case_bool_decide.
Qed.

Lemma getCommitDate_normalizeCommit c :
  getCommitDate (normalizeCommit c) = getCommitDate c.
Proof.
  unfold getCommitDate. destruct (normalizeCommit_dates c) as [-> ->]. done.
Qed.

(** C6: for a days selection the result is the log of the single bounded
    fetch, filtered by [getCommitDate(commit) >= sinceDate] and passed
    through [normalizeCommit]; the only operation performed is that one
    [log] call (no [getCommit], no traversal). For a commit with an
    authoring timestamp [t] and a cutoff [s], the commit is kept exactly when
    [s <= t]: kept when [t = s], dropped when [t < s]. *)
Theorem days_selection_filters_inclusively repo sinceDate days allCommits :
  log repo logOptions = Ok allCommits →
  getCommitsForSelection repo (DaysSelection sinceDate days)
  = Ok (normalizeCommit <$>
          filter (λ c, dateGe (getCommitDate c) sinceDate = true) allCommits)
  ∧ getCommitsForSelectionTrace repo (DaysSelection sinceDate days)
    = [CallLog logOptions]
  ∧ (∀ c t s result,
       c ∈ allCommits → authorDate c = Some (Some t) → sinceDate = Some s →
       getCommitsForSelection repo (DaysSelection sinceDate days) = Ok result →
       (normalizeCommit c ∈ result ↔ s ≤ t)).
Proof.
  intros Hlog.
  assert (Hres : getCommitsForSelection repo (DaysSelection sinceDate days)
    = Ok (normalizeCommit <$>
            filter (λ c, dateGe (getCommitDate c) sinceDate = true) allCommits)).
  { unfold getCommitsForSelection, getCommitsForSelectionRun.
    by rewrite Hlog. }
  split; [done|]. split.
  - unfold getCommitsForSelectionTrace, getCommitsForSelectionRun.
    by rewrite Hlog.
  - intros c t s result Hc Hdate -> Hresult.
    rewrite Hres in Hresult. injection Hresult as <-.
    rewrite list_elem_of_fmap. split.
    + intros (c' & Heq & [Hge _]%list_elem_of_filter).
      rewrite <- getCommitDate_normalizeCommit, <- Heq,
        getCommitDate_normalizeCommit in Hge.
      unfold getCommitDate in Hge. rewrite Hdate in Hge. simpl in Hge. lia.
    + intros Hle. exists c. split; [done|].
      apply list_elem_of_filter. split; [|done].
      unfold getCommitDate. rewrite Hdate. simpl. lia.
Qed.

Lemma days_selection_filters_inclusively_witness :
  getCommitsForSelection
    (fakeRepo [datedCommit "new" 1001; datedCommit "edge" 1000;
               datedCommit "old" 999] ∅)
    (DaysSelection (Some 1000) 7)
  = Ok [datedCommit "new" 1001; datedCommit "edge" 1000].
Proof.
  exact (proj1 (days_selection_filters_inclusively
    (fakeRepo [datedCommit "new" 1001; datedCommit "edge" 1000;
               datedCommit "old" 999] ∅)
    (Some 1000) 7 _ eq_refl)).
Defined.

(** ** Range resolution: the target-based variants *)

Lemma target_selection_run repo selection target heads :
  selectionTarget selection = Some target →
  log repo logOptions = Ok heads →
  getCommitsForSelection repo selection =
  if bool_decide (length heads = 0%nat) then Ok []
  else
    let targetHashes := collectAncestorHashes repo target MAX_LOG_ENTRIES in
    if negb (existsb (λ h, bool_decide (h ∈ targetHashes))
                     (omap (λ c, normalizeHash (hash c)) heads))
    then Ok []
    else Ok (normalizeCommit <$>
               filter (λ c, keepHeadCommit targetHashes c = true) heads).
Proof.
  intros Htarget Hlog.
  unfold getCommitsForSelection, getCommitsForSelectionRun.
  unfold collectAncestorHashes.
  destruct selection as [d n|d tg h|d h]; simplify_eq/=;
    rewrite Hlog; case_bool_decide; try done;
    by destruct (negb _).
Qed.

Lemma hasCommonAncestor_true (targetHashes : gset jsstring) heads :
  existsb (λ h, bool_decide (h ∈ targetHashes))
          (omap (λ c, normalizeHash (hash c)) heads) = true
  ↔ ∃ c h, c ∈ heads ∧ normalizeHash (hash c) = Some h ∧ h ∈ targetHashes.
Proof.
  rewrite existsb_exists. split.
  - intros (h & Hin & Hdec). apply list_elem_of_In in Hin.
    apply list_elem_of_omap in Hin as (c & Hc & Hnorm).
    apply bool_decide_eq_true in Hdec. eauto.
  - intros (c & h & Hc & Hnorm & Hin). exists h. split.
    + apply list_elem_of_In, list_elem_of_omap. eauto.
    + by apply bool_decide_eq_true.
Qed.

Lemma keepHeadCommit_true (targetHashes : gset jsstring) c :
  keepHeadCommit targetHashes c = true
  ↔ ∃ h, normalizeHash (hash c) = Some h ∧ h ∉ targetHashes.
Proof.
  unfold keepHeadCommit. destruct (normalizeHash (hash c)) as [h|].
  - rewrite negb_true_iff, bool_decide_eq_false. naive_solver.
  - naive_solver.
Qed.

(** C7: whatever the selection, the returned list is a subsequence of the
    fetched log, each kept commit passed through [normalizeCommit]: the
    commits come out in the order of the log, none is duplicated or
    reordered. When no hash of the log needs trimming the returned list is
    literally a subsequence of the log. *)
Theorem result_preserves_log_order repo selection result :
  getCommitsForSelection repo selection = Ok result →
  ∃ fetched kept,
    log repo logOptions = Ok fetched
    ∧ sublist kept fetched
    ∧ result = normalizeCommit <$> kept
    ∧ ((∀ c, c ∈ fetched → normalizeCommit c = c) → sublist result fetched).
Proof.
  intros Hres.
  assert (Hmain : ∃ fetched kept,
    log repo logOptions = Ok fetched ∧ sublist kept fetched
    ∧ result = normalizeCommit <$> kept).
  { destruct (log repo logOptions) as [fetched|] eqn:Hlog.
    - exists fetched. destruct (selectionTarget selection) as [target|] eqn:Htarget.
      + rewrite (target_selection_run _ _ _ _ Htarget Hlog) in Hres.
        case_bool_decide.
        { injection Hres as <-. exists []. split; [done|].
          split; [apply sublist_nil_l|done]. }
        simpl in Hres. destruct (negb _).
        { injection Hres as <-. exists []. split; [done|].
          split; [apply sublist_nil_l|done]. }
        injection Hres as <-.
        exists (filter (λ c, keepHeadCommit
                  (collectAncestorHashes repo target MAX_LOG_ENTRIES) c = true)
                  fetched).
        split; [done|]. split; [apply sublist_filter|done].
      + destruct selection as [d n|d tg h|d h]; simplify_eq/=.
        destruct (days_selection_filters_inclusively repo d n fetched Hlog)
          as [Hdays _].
        rewrite Hdays in Hres. injection Hres as <-.
        exists (filter (λ c, dateGe (getCommitDate c) d = true) fetched).
        split; [done|]. split; [apply sublist_filter|done].
    - unfold getCommitsForSelection, getCommitsForSelectionRun in Hres.
      destruct selection; rewrite Hlog in Hres; discriminate. }
  destruct Hmain as (fetched & kept & Hlog & Hsub & ->).
  exists fetched, kept. do 3 (split; [done|]).
  intros Hid. replace (normalizeCommit <$> kept) with kept; [done|].
  rewrite <- (list_fmap_id kept) at 1. apply list_fmap_ext.
  intros i c Hc. symmetry. apply Hid.
  apply (sublist_subseteq _ _ Hsub). apply list_elem_of_lookup. eauto.
Qed.

(** C5: for a tag or commit selection whose log fetch succeeds, the result
    is the empty list, returned normally, when the head log is empty and
    also when no head commit has its normalized hash among the ancestors
    collected from the target; the head log is not returned in that case. *)
Theorem target_selection_empty_without_common_ancestor
    repo selection target heads :
  selectionTarget selection = Some target →
  log repo logOptions = Ok heads →
  heads = []
  ∨ (∀ c h, c ∈ heads → normalizeHash (hash c) = Some h →
            h ∉ collectAncestorHashes repo target MAX_LOG_ENTRIES) →
  getCommitsForSelection repo selection = Ok [].
Proof.
  intros Htarget Hlog Hcase.
  rewrite (target_selection_run _ _ _ _ Htarget Hlog).
  case_bool_decide; [done|]. simpl.
  destruct Hcase as [->|Hnone]; [done|].
  destruct (existsb _ _) eqn:Hex; [|done].
  apply hasCommonAncestor_true in Hex as (c & h & Hc & Hnorm & Hin).
  by destruct (Hnone c h Hc Hnorm).
Qed.

Lemma disjoint_run :
  collectAncestorRun disjointRepo (str "y1") MAX_LOG_ENTRIES
  = run disjointRepo MAX_LOG_ENTRIES 1 (initialState (str "y1")).
Proof. apply run_loop. vm_compute. reflexivity. Qed.

Lemma disjoint_targets :
  collectAncestorHashes disjointRepo (str "y1") MAX_LOG_ENTRIES = {[str "y1"]}.
Proof.
  unfold collectAncestorHashes. rewrite disjoint_run. vm_compute. reflexivity.
Qed.

Lemma target_selection_empty_without_common_ancestor_witness :
  getCommitsForSelection disjointRepo
    (CommitSelection (Some 0) (str "y1")) = Ok [].
Proof.
  apply (target_selection_empty_without_common_ancestor disjointRepo
           (CommitSelection (Some 0) (str "y1")) (str "y1")
           [commitOf "x2" ["x1"]; commitOf "x1" []]).
  - reflexivity.
  - reflexivity.
  - right. rewrite disjoint_targets. intros c h Hc Hnorm.
    apply not_elem_of_singleton.
    apply elem_of_cons in Hc as [->|Hc].
    + vm_compute in Hnorm. injection Hnorm as <-. discriminate.
    + apply elem_of_cons in Hc as [->|Hc]; [|by inversion Hc].
      vm_compute in Hnorm. injection Hnorm as <-. discriminate.
Defined.

Lemma scenario_run headLog :
  collectAncestorRun (scenarioRepo headLog) (str "m1") MAX_LOG_ENTRIES
  = run (scenarioRepo headLog) MAX_LOG_ENTRIES 3 (initialState (str "m1")).
Proof. apply run_loop. vm_compute. reflexivity. Qed.

Lemma scenario_targets headLog :
  collectAncestorHashes (scenarioRepo headLog) (str "m1") MAX_LOG_ENTRIES
  = {[str "m1"; str "i0"]}.
Proof.
  unfold collectAncestorHashes. rewrite scenario_run. vm_compute. reflexivity.
Qed.

(** C1: for a tag or commit selection, when some head commit has its
    normalized hash among the ancestors collected from the target, the
    result is the head log restricted to the commits whose normalized hash
    exists and is not among those ancestors, in log order, each passed
    through [normalizeCommit]. In the scenario of one shared initial commit,
    four feature-only commits on the head and a tagged commit on main, the
    result consists of exactly the four feature commits, whatever order the
    log delivers them in. *)
Theorem target_selection_returns_divergence :
  (∀ repo selection target heads,
     selectionTarget selection = Some target →
     log repo logOptions = Ok heads →
     (∃ c h, c ∈ heads ∧ normalizeHash (hash c) = Some h
             ∧ h ∈ collectAncestorHashes repo target MAX_LOG_ENTRIES) →
     getCommitsForSelection repo selection
     = Ok (normalizeCommit <$>
             filter (λ c, keepHeadCommit
                            (collectAncestorHashes repo target MAX_LOG_ENTRIES) c
                          = true) heads)
     ∧ ∀ c, keepHeadCommit (collectAncestorHashes repo target MAX_LOG_ENTRIES) c
            = true
            ↔ ∃ h, normalizeHash (hash c) = Some h
                   ∧ h ∉ collectAncestorHashes repo target MAX_LOG_ENTRIES)
  ∧ (∀ headLog,
       headLog ≡ₚ featureLog →
       ∃ result,
         getCommitsForSelection (scenarioRepo headLog) scenarioSelection
         = Ok result
         ∧ result ≡ₚ take 4 featureLog
         ∧ sublist result headLog).
Proof.
  assert (Hgen : ∀ repo selection target heads,
     selectionTarget selection = Some target →
     log repo logOptions = Ok heads →
     (∃ c h, c ∈ heads ∧ normalizeHash (hash c) = Some h
             ∧ h ∈ collectAncestorHashes repo target MAX_LOG_ENTRIES) →
     getCommitsForSelection repo selection
     = Ok (normalizeCommit <$>
             filter (λ c, keepHeadCommit
                            (collectAncestorHashes repo target MAX_LOG_ENTRIES) c
                          = true) heads)).
  { intros repo selection target heads Htarget Hlog Hcommon.
    rewrite (target_selection_run _ _ _ _ Htarget Hlog).
    case_bool_decide as Hlen.
    { destruct Hcommon as (c & _ & Hc & _). destruct heads; [by inversion Hc|done]. }
    simpl. apply hasCommonAncestor_true in Hcommon. by rewrite Hcommon. }
  split.
  - intros repo selection target heads Htarget Hlog Hcommon.
    split; [by apply Hgen|]. intros c. apply keepHeadCommit_true.
  - intros headLog Hperm.
    assert (Hin : commitOf "i0" [] ∈ headLog).
    { rewrite Hperm. unfold featureLog. set_solver. }
    pose proof (Hgen (scenarioRepo headLog) scenarioSelection (str "m1") headLog
                  eq_refl eq_refl) as Hres.
    rewrite scenario_targets in Hres.
    eexists. split; [apply Hres|].
    + exists (commitOf "i0" []), (str "i0"). split; [done|].
      split; [reflexivity|]. set_solver.
    + assert (Hid : ∀ l, l ⊆ featureLog → normalizeCommit <$> l = l).
      { intros l Hl. rewrite <- (list_fmap_id l) at 2. apply list_fmap_ext.
        intros i c Hc. apply list_elem_of_lookup_2, Hl in Hc.
        unfold featureLog in Hc.
        repeat (apply elem_of_cons in Hc as [->|Hc]; [reflexivity|]).
        by inversion Hc. }
      rewrite Hid.
      * split; [|apply sublist_filter].
        rewrite Hperm. vm_compute. reflexivity.
      * intros c [_ Hc]%list_elem_of_filter. by rewrite <- Hperm.
Qed.

Lemma target_selection_returns_divergence_witness :
  getCommitsForSelection (scenarioRepo featureLog) scenarioSelection
  = Ok (take 4 featureLog).
Proof.
  destruct (proj1 target_selection_returns_divergence
              (scenarioRepo featureLog) scenarioSelection (str "m1") featureLog
              eq_refl eq_refl) as [Hres _].
  - exists (commitOf "i0" []), (str "i0"). split; [|split].
    + unfold featureLog. do 4 right. left.
    + reflexivity.
    + rewrite scenario_targets. apply elem_of_union_r, elem_of_singleton.
      reflexivity.
  - rewrite Hres, scenario_targets. vm_compute. reflexivity.
Defined.

Lemma scenario_result :
  getCommitsForSelection (scenarioRepo featureLog) scenarioSelection
  = Ok (take 4 featureLog).
Proof.
  rewrite (target_selection_run (scenarioRepo featureLog) scenarioSelection
             (str "m1") featureLog eq_refl eq_refl).
  rewrite scenario_targets. vm_compute. reflexivity.
Qed.

Lemma result_preserves_log_order_witness :
  ∃ fetched kept,
    log (scenarioRepo featureLog) logOptions = Ok fetched
    ∧ sublist kept fetched
    ∧ take 4 featureLog = normalizeCommit <$> kept
    ∧ ((∀ c, c ∈ fetched → normalizeCommit c = c) →
       sublist (take 4 featureLog) fetched).
Proof.
  exact (result_preserves_log_order (scenarioRepo featureLog) scenarioSelection
           (take 4 featureLog) scenario_result).
Defined.

(** ** Blank hashes *)

Lemma forallb_whitespaceOnly s : forallb isWhiteSpace s = true ↔ whitespaceOnly s.
Proof.
  unfold whitespaceOnly. induction s as [|c s IH]; simpl.
  - split; [constructor|done].
  - rewrite andb_true_iff, IH, Forall_cons. done.
Qed.

Lemma usableHash_normalizeHash c :
  usableHash c = true ↔ is_Some (normalizeHash (hash c)).
Proof.
  unfold usableHash. destruct (hash c) as [s|].
  - rewrite negb_true_iff, <- not_true_iff_false, forallb_whitespaceOnly.
    rewrite <- normalizeHash_None_iff, <- not_eq_None_Some. done.
  - split; [done|]. by intros [? ?].
Qed.

Lemma step_ext repo1 repo2 maxCommits st :
  (∀ h, getCommit repo1 h = getCommit repo2 h) →
  step repo1 maxCommits st = step repo2 maxCommits st.
Proof. intros Hext. unfold step. destruct (queue st); [done|]. by rewrite Hext. Qed.

Lemma loop_ext repo1 repo2 maxCommits st :
  (∀ h, getCommit repo1 h = getCommit repo2 h) →
  loop repo1 maxCommits st = loop repo2 maxCommits st.
Proof.
  intros Hext.
  destruct (loop_terminates repo1 maxCommits st) as (n & Hexit & ->).
  assert (Hrun : ∀ k s, run repo1 maxCommits k s = run repo2 maxCommits k s).
  { induction k as [|k IH]; intros s; simpl; [done|].
    rewrite (step_ext repo1 repo2) by done.
    destruct (step repo2 maxCommits s); [apply IH|done]. }
  rewrite Hrun. symmetry. apply run_loop.
  by rewrite <- Hrun, <- (step_ext repo1 repo2).
Qed.

Lemma collectAncestorHashes_withLog repo headLog startHash maxCommits :
  collectAncestorHashes (withLog repo headLog) startHash maxCommits
  = collectAncestorHashes repo startHash maxCommits.
Proof.
  unfold collectAncestorHashes, collectAncestorRun. f_equal. by apply loop_ext.
Qed.

Lemma collect_normalized repo startHash maxCommits h :
  h ∈ collectAncestorHashes repo startHash maxCommits → normalized h.
Proof.
  intros Hreach%collect_sound.
  induction Hreach as [s Hs|h c p h' _ _ _ _ Hnorm];
    by eapply normalizeHash_normalized.
Qed.

Lemma normalizeCommit_hash c h :
  normalizeHash (hash c) = Some h → hash (normalizeCommit c) = Some h.
Proof.
  intros Hnorm. unfold normalizeCommit. rewrite Hnorm.
  case_bool_decide as Hne; [done|].
  destruct (decide (Some h = hash c)); [done|]. by destruct Hne.
Qed.

(** C10: in a tag- or commit-based resolution, head commits whose hash is
    missing, empty or whitespace-only play no part: the result equals the
    one obtained from the head log with those commits removed (so they are
    neither returned nor counted as a common ancestor), and every returned
    commit carries a normalized hash. Every identifier in the set returned
    by [collectAncestorHashes] is normalized: non-empty, with no whitespace
    at either end. *)
Theorem blank_hashes_are_ignored :
  (∀ repo selection target heads,
     selectionTarget selection = Some target →
     log repo logOptions = Ok heads →
     getCommitsForSelection repo selection
     = getCommitsForSelection
         (withLog repo (filter (λ c, usableHash c = true) heads)) selection
     ∧ ∀ result c,
         getCommitsForSelection repo selection = Ok result → c ∈ result →
         ∃ h, hash c = Some h ∧ normalized h)
  ∧ (∀ repo startHash maxCommits h,
       h ∈ collectAncestorHashes repo startHash maxCommits → normalized h).
Proof.
  split; [|apply collect_normalized].
  intros repo selection target heads Htarget Hlog.
  set (T := collectAncestorHashes repo target MAX_LOG_ENTRIES).
  set (usable := filter (λ c, usableHash c = true) heads).
  assert (Hhashes : omap (λ c, normalizeHash (hash c)) usable
                    = omap (λ c, normalizeHash (hash c)) heads).
  { unfold usable. clear. induction heads as [|c heads IH]; [done|].
    rewrite filter_cons.
    destruct (decide (usableHash c = true)) as [Hu|Hu];
      cbn -[normalizeHash filter]; rewrite IH; [done|].
    destruct (normalizeHash (hash c)) eqn:E; [|done].
    destruct Hu. apply usableHash_normalizeHash. by rewrite E. }
  assert (Hkept : filter (λ c, keepHeadCommit T c = true) usable
                  = filter (λ c, keepHeadCommit T c = true) heads).
  { unfold usable. clear. induction heads as [|c heads IH]; [done|].
    rewrite (filter_cons (λ c, usableHash c = true)).
    destruct (decide (usableHash c = true)) as [Hu|Hu].
    - rewrite !(filter_cons (λ c, keepHeadCommit T c = true)), IH. done.
    - rewrite (filter_cons (λ c, keepHeadCommit T c = true)), IH.
      rewrite decide_False; [done|].
      intros (h & Hnorm & _)%keepHeadCommit_true.
      destruct Hu. apply usableHash_normalizeHash. by rewrite Hnorm. }
  assert (Hres := target_selection_run repo selection target heads Htarget Hlog).
  assert (Hres' := target_selection_run (withLog repo usable) selection target
                     usable Htarget eq_refl).
  rewrite collectAncestorHashes_withLog in Hres'. fold T in Hres, Hres'.
  split.
  - rewrite Hres, Hres'. cbn zeta. rewrite Hhashes, Hkept.
    case_bool_decide as Hlen; case_bool_decide as Hlen'; try done.
    + apply length_zero_iff_nil in Hlen. by rewrite <- Hhashes, Hlen.
    + destruct heads; [by destruct Hlen|done].
  - intros result c Hresult Hc. rewrite Hres in Hresult.
    case_bool_decide; [injection Hresult as <-; by inversion Hc|].
    cbn zeta in Hresult. destruct (negb _);
      [injection Hresult as <-; by inversion Hc|].
    injection Hresult as <-.
    apply list_elem_of_fmap in Hc as (c0 & -> & [Hkeep _]%list_elem_of_filter).
    apply keepHeadCommit_true in Hkeep as (h & Hnorm & _).
    exists h. split; [by apply normalizeCommit_hash|].
    by eapply normalizeHash_normalized.
Qed.

Lemma blank_hashes_are_ignored_witness :
  getCommitsForSelection (scenarioRepo blankLog) scenarioSelection
  = getCommitsForSelection
      (withLog (scenarioRepo blankLog) [commitOf "f4" ["f3"]; commitOf "i0" []])
      scenarioSelection.
Proof.
  exact (proj1 (proj1 blank_hashes_are_ignored (scenarioRepo blankLog)
                  scenarioSelection (str "m1") blankLog eq_refl eq_refl)).
Defined.


(** ** More on commits and the days variant *)

Lemma normalizeCommit_fields c :
  parents (normalizeCommit c) = parents c
  ∧ authorName (normalizeCommit c) = authorName c
  ∧ message (normalizeCommit c) = message c.
Proof.
  unfold normalizeCommit. destruct (normalizeHash (hash c)); [|done].
  by case_bool_decide.
Qed.

Lemma normalizeCommit_blank c :
  normalizeHash (hash c) = None → normalizeCommit c = c.
Proof. intros H. unfold normalizeCommit. by rewrite H. Qed.

Lemma normalizeCommit_fixed c h :
  hash c = Some h → normalized h → normalizeCommit c = c.
Proof.
  intros Hh Hn. unfold normalizeCommit.
  rewrite Hh, (normalizeHash_fixed _ Hn).
  by rewrite bool_decide_eq_false_2 by (by intros []).
Qed.

(** X1: [normalizeCommit] is idempotent and touches the hash only: the
    other fields are kept, the hash becomes its normalized form when there
    is one, and a commit whose hash is missing, empty or whitespace-only is
    returned as it is (its blank hash is not cleared). *)
Theorem normalizeCommit_idempotent_hash_only c :
  normalizeCommit (normalizeCommit c) = normalizeCommit c
  ∧ hash (normalizeCommit c)
    = match normalizeHash (hash c) with Some h => Some h | None => hash c end
  ∧ normalizeHash (hash (normalizeCommit c)) = normalizeHash (hash c)
  ∧ parents (normalizeCommit c) = parents c
  ∧ authorDate (normalizeCommit c) = authorDate c
  ∧ commitDate (normalizeCommit c) = commitDate c
  ∧ authorName (normalizeCommit c) = authorName c
  ∧ message (normalizeCommit c) = message c.
Proof.
  assert (Hhash : hash (normalizeCommit c)
    = match normalizeHash (hash c) with Some h => Some h | None => hash c end).
  { destruct (normalizeHash (hash c)) as [h|] eqn:E.
    - by apply normalizeCommit_hash.
    - by rewrite normalizeCommit_blank. }
  split; [|split; [done|split]].
  - destruct (normalizeHash (hash c)) as [h|] eqn:E.
    + apply (normalizeCommit_fixed _ h); [done|].
      by eapply normalizeHash_normalized.
    + by rewrite !(normalizeCommit_blank c E).
  - rewrite Hhash. destruct (normalizeHash (hash c)) as [h|] eqn:E; [|done].
    apply normalizeHash_fixed. by eapply normalizeHash_normalized.
  - destruct (normalizeCommit_fields c) as (-> & -> & ->).
    by destruct (normalizeCommit_dates c) as [-> ->].
Qed.

Lemma days_selection_run repo sinceDate days allCommits :
  log repo logOptions = Ok allCommits →
  getCommitsForSelection repo (DaysSelection sinceDate days)
  = Ok (normalizeCommit <$>
          filter (λ c, dateGe (getCommitDate c) sinceDate = true) allCommits).
Proof.
  intros Hlog. unfold getCommitsForSelection, getCommitsForSelectionRun.
  by rewrite Hlog.
Qed.

Lemma dateGe_true a b :
  dateGe a b = true ↔ ∃ t s, a = Some t ∧ b = Some s ∧ s ≤ t.
Proof.
  unfold dateGe. destruct a as [t|], b as [s|]; try naive_solver.
  rewrite Z.leb_le. naive_solver.
Qed.

(** X2: dates that are invalid or missing in a days selection. Every
    returned commit has a valid date at or after a valid cutoff; so an
    invalid cutoff returns nothing, a commit whose [authorDate] is an
    invalid date is never returned even when its [commitDate] is fine, and a
    commit carrying neither date counts as dated at the epoch: it is kept
    exactly when the cutoff is not after the epoch. *)
Theorem days_selection_invalid_and_missing_dates
    repo sinceDate days allCommits result :
  log repo logOptions = Ok allCommits →
  getCommitsForSelection repo (DaysSelection sinceDate days) = Ok result →
  (∀ r, r ∈ result →
        ∃ t s, getCommitDate r = Some t ∧ sinceDate = Some s ∧ s ≤ t
               ∧ authorDate r ≠ Some None)
  ∧ (sinceDate = None → result = [])
  ∧ (∀ c s, c ∈ allCommits → authorDate c = None → commitDate c = None →
            sinceDate = Some s → (normalizeCommit c ∈ result ↔ s ≤ 0)).
Proof.
  intros Hlog Hres. rewrite (days_selection_run _ _ _ _ Hlog) in Hres.
  injection Hres as <-.
  assert (Hall : ∀ r, r ∈ normalizeCommit <$>
      filter (λ c, dateGe (getCommitDate c) sinceDate = true) allCommits →
      ∃ t s, getCommitDate r = Some t ∧ sinceDate = Some s ∧ s ≤ t
             ∧ authorDate r ≠ Some None).
  { intros r (c & -> & [Hge _]%list_elem_of_filter)%list_elem_of_fmap.
    rewrite getCommitDate_normalizeCommit.
    apply dateGe_true in Hge as (t & s & Ht & Hs & Hle).
    exists t, s. do 3 (split; [done|]).
    destruct (normalizeCommit_dates c) as [-> _].
    intros Hinv. unfold getCommitDate in Ht. by rewrite Hinv in Ht. }
  split; [done|]. split.
  - intros ->. destruct (normalizeCommit <$> _) as [|r l] eqn:E; [done|].
    destruct (Hall r) as (t & s & _ & Hs & _); [by left|done].
  - intros c s Hc Ha Hd ->. split.
    + intros (t & s' & Ht & [= <-] & Hle & _)%Hall.
      rewrite getCommitDate_normalizeCommit in Ht.
      unfold getCommitDate in Ht. rewrite Ha, Hd in Ht. by injection Ht as <-.
    + intros Hle. apply list_elem_of_fmap. exists c. split; [done|].
      apply list_elem_of_filter. split; [|done].
      unfold getCommitDate. rewrite Ha, Hd. simpl. by apply Z.leb_le.
Qed.


Lemma days_selection_invalid_and_missing_dates_witness :
  let repo := fakeRepo [datedCommit "new" 1001; invalidDateCommit; undatedCommit] ∅ in
  getCommitsForSelection repo (DaysSelection (Some 1000) 7)
  = Ok [datedCommit "new" 1001]
  ∧ (normalizeCommit undatedCommit ∈ [datedCommit "new" 1001] ↔ 1000 ≤ 0).
Proof.
  split; [reflexivity|].
  exact (proj2 (proj2 (days_selection_invalid_and_missing_dates
    (fakeRepo [datedCommit "new" 1001; invalidDateCommit; undatedCommit] ∅)
    (Some 1000) 7 _ [datedCommit "new" 1001] eq_refl eq_refl))
    undatedCommit 1000 ltac:(do 2 right; left) eq_refl eq_refl eq_refl).
Defined.

(** ** More on the traversal *)

Lemma step_visited_mono repo maxCommits s s' :
  step repo maxCommits s = Some s' → visited s ⊆ visited s'.
Proof.
  intros [_ Hcase]%step_Some.
  destruct Hcase; simpl; set_solver.
Qed.

Lemma loop_visited_mono repo maxCommits st :
  visited st ⊆ visited (loop repo maxCommits st).
Proof.
  apply (loop_invariant (λ s, visited st ⊆ visited s)); [|done].
  intros s s' Hsub Hstep. etrans; [done|]. by eapply step_visited_mono.
Qed.

Lemma step_cap_mono repo m m' s s' :
  m ≤ m' → step repo m s = Some s' → step repo m' s = Some s'.
Proof.
  intros Hle [Hlt Hcase]%step_Some. apply step_Some. split; [lia|done].
Qed.

Lemma initialState_trim startHash :
  initialState (trim startHash) = initialState startHash.
Proof.
  unfold initialState. f_equal.
  assert (normalizeHash (Some (trim startHash)) = normalizeHash (Some startHash))
    as ->; [|done].
  destruct startHash as [|c s]; [done|].
  change (normalizeHash (Some (trim (c :: s)))
          = if truthyString (trim (c :: s)) then Some (trim (c :: s)) else None).
  destruct (trim (c :: s)) as [|d t] eqn:E; [done|].
  rewrite <- E. cbn [normalizeHash]. rewrite trim_idemp, E. done.
Qed.

Lemma collect_contains_start repo startHash maxCommits s :
  normalizeHash (Some startHash) = Some s → 0 < maxCommits →
  s ∈ collectAncestorHashes repo startHash maxCommits.
Proof.
  intros Hs Hpos. unfold collectAncestorHashes, collectAncestorRun.
  assert (Hne : s ≠ []) by (by apply normalizeHash_normalized in Hs as [? _]).
  assert (Hinit : initialState startHash = mkLoopState ∅ [s] []).
  { unfold initialState. by rewrite Hs. }
  rewrite Hinit.
  assert (Hcap : Z.of_nat (size (visited (mkLoopState ∅ [s] []))) < maxCommits).
  { change (Z.of_nat (size (∅ : gset jsstring)) < maxCommits).
    rewrite size_empty. lia. }
  destruct (getCommit repo s) as [c|] eqn:Hg.
  - rewrite loop_step.
    rewrite (proj2 (step_Some repo maxCommits _ _)
               (conj Hcap (StepFetched repo (mkLoopState ∅ [s] []) s [] c
                             eq_refl Hne (not_elem_of_empty s) Hg))).
    apply loop_visited_mono. simpl. set_solver.
  - rewrite loop_step.
    rewrite (proj2 (step_Some repo maxCommits _ _)
               (conj Hcap (StepFailed repo (mkLoopState ∅ [s] []) s []
                             eq_refl Hne (not_elem_of_empty s) Hg))).
    apply loop_visited_mono. simpl. set_solver.
Qed.

(** X3: the traversal depends on [startHash] only through its trimmed form,
    and whenever that form is non-empty and the cap is at least one, the
    normalized start identifier itself is in the returned set (whether or
    not its fetch succeeds). *)
Theorem collectAncestorHashes_contains_start repo startHash maxCommits :
  collectAncestorHashes repo (trim startHash) maxCommits
  = collectAncestorHashes repo startHash maxCommits
  ∧ (∀ s, normalizeHash (Some startHash) = Some s → 0 < maxCommits →
          s = trim startHash
          ∧ s ∈ collectAncestorHashes repo startHash maxCommits).
Proof.
  split.
  - unfold collectAncestorHashes, collectAncestorRun.
    by rewrite initialState_trim.
  - intros s Hs Hpos. split; [|by apply collect_contains_start].
    by apply normalizeHash_Some_trim in Hs as (h0 & [= <-] & -> & _).
Qed.

Lemma collectAncestorHashes_contains_start_witness :
  str "m" = trim (str " m ")
  ∧ str "m" ∈ collectAncestorHashes diamondRepo (str " m ") MAX_LOG_ENTRIES.
Proof.
  apply (proj2 (collectAncestorHashes_contains_start diamondRepo (str " m ")
                  MAX_LOG_ENTRIES)); [reflexivity|reflexivity].
Defined.

Lemma run_cap_mono repo m m' n st :
  m ≤ m' →
  visited (run repo m n st) ⊆ visited (loop repo m' st).
Proof.
  intros Hle. revert st. induction n as [|n IH]; intros st; simpl.
  - apply loop_visited_mono.
  - destruct (step repo m st) as [st'|] eqn:Hstep; [|apply loop_visited_mono].
    rewrite (loop_step repo m' st), (step_cap_mono _ _ _ _ _ Hle Hstep).
    apply IH.
Qed.

(** X4: raising the cap never loses an ancestor: the set collected under a
    cap is contained in the set collected under any larger cap. *)
Theorem collectAncestorHashes_cap_monotone repo startHash m m' :
  m ≤ m' →
  collectAncestorHashes repo startHash m ⊆ collectAncestorHashes repo startHash m'.
Proof.
  intros Hle. unfold collectAncestorHashes, collectAncestorRun.
  destruct (loop_terminates repo m (initialState startHash)) as (n & _ & ->).
  by apply run_cap_mono.
Qed.

Lemma collectAncestorHashes_cap_monotone_witness :
  collectAncestorHashes chainRepo (str "c0") 2
  ⊆ collectAncestorHashes chainRepo (str "c0") 3.
Proof.
  apply (collectAncestorHashes_cap_monotone chainRepo (str "c0") 2 3). lia.
Defined.


(** ** What a resolution costs and when it fails *)

Lemma loop_trace_no_log repo maxCommits st :
  (∀ o, CallLog o ∉ trace st) →
  ∀ o, CallLog o ∉ trace (loop repo maxCommits st).
Proof.
  intros Hinit.
  apply (loop_invariant (λ s, ∀ o, CallLog o ∉ trace s)); [|done].
  intros s s' Hs [_ Hcase]%step_Some o.
  destruct Hcase; simpl; rewrite ?elem_of_app, ?list_elem_of_fmap;
    [apply Hs| |];
    intros Hin; decompose [or] Hin;
      try (by eapply Hs); set_solver.
Qed.

Lemma collect_fetch_count repo startHash maxCommits :
  0 ≤ maxCommits →
  let t := trace (collectAncestorRun repo startHash maxCommits) in
  length (fetchedHashes t)
  = size (collectAncestorHashes repo startHash maxCommits)
  ∧ Z.of_nat (length (fetchedHashes t)) ≤ maxCommits
  ∧ NoDup (fetchedHashes t)
  ∧ Forall normalized (fetchedHashes t).
Proof.
  intros Hpos t.
  destruct (dedupInv_run repo startHash maxCommits) as (Hok & Hvis & Hfetch).
  fold t in Hok, Hvis, Hfetch.
  assert (Hnd : NoDup (addedHashes t)) by (by eapply traceOk_NoDup_added).
  assert (Hlen : length (fetchedHashes t)
                 = size (collectAncestorHashes repo startHash maxCommits)).
  { unfold collectAncestorHashes. rewrite Hvis, Hfetch.
    by rewrite size_list_to_set. }
  split; [done|]. split; [|split].
  - rewrite Hlen. unfold collectAncestorHashes, collectAncestorRun.
    apply (loop_invariant (λ s, Z.of_nat (size (visited s)) ≤ maxCommits)).
    + apply step_size_bound.
    + change (Z.of_nat (size (∅ : gset jsstring)) ≤ maxCommits).
      rewrite size_empty. lia.
  - by rewrite Hfetch.
  - rewrite Hfetch. apply Forall_forall. intros h Hh.
    apply (collect_normalized repo startHash maxCommits).
    unfold collectAncestorHashes. rewrite Hvis. by apply elem_of_list_to_set.
Qed.

(** X5: the repository traffic of one resolution. [getCommitsForSelection]
    issues exactly one [log] call, the first thing it does, with the bound of
    200 entries; a days selection issues nothing else; a tag or commit
    selection issues at most 200 [getCommit] calls, each for a normalized
    identifier and no identifier twice. *)
Theorem getCommitsForSelection_repository_calls repo selection :
  ∃ rest,
    getCommitsForSelectionTrace repo selection = CallLog logOptions :: rest
    ∧ maxEntries logOptions = 200
    ∧ (∀ o, CallLog o ∉ rest)
    ∧ (length (fetchedHashes rest) ≤ 200)%nat
    ∧ NoDup (fetchedHashes rest)
    ∧ Forall normalized (fetchedHashes rest)
    ∧ (selectionTarget selection = None → rest = []).
Proof.
  assert (Hnil : ∃ rest : list Event,
    [CallLog logOptions] = CallLog logOptions :: rest
    ∧ maxEntries logOptions = 200
    ∧ (∀ o, CallLog o ∉ rest)
    ∧ (length (fetchedHashes rest) ≤ 200)%nat
    ∧ NoDup (fetchedHashes rest)
    ∧ Forall normalized (fetchedHashes rest)
    ∧ rest = []).
  { exists []. repeat split; simpl; try done; try lia; try constructor.
    intros o Hin. by inversion Hin. }
  assert (Hrun : ∀ target, ∃ rest : list Event,
    CallLog logOptions :: trace (collectAncestorRun repo target MAX_LOG_ENTRIES)
    = CallLog logOptions :: rest
    ∧ maxEntries logOptions = 200
    ∧ (∀ o, CallLog o ∉ rest)
    ∧ (length (fetchedHashes rest) ≤ 200)%nat
    ∧ NoDup (fetchedHashes rest)
    ∧ Forall normalized (fetchedHashes rest)).
  { intros target. eexists. split; [done|]. split; [done|].
    destruct (collect_fetch_count repo target MAX_LOG_ENTRIES)
      as (_ & Hle & Hnd & Hnorm); [done|].
    pose proof (eq_refl : MAX_LOG_ENTRIES = 200) as Hmax.
    split; [|split; [lia|done]].
    apply loop_trace_no_log. intros o Hin. by inversion Hin. }
  unfold getCommitsForSelectionTrace, getCommitsForSelectionRun.
  destruct selection as [d n|d tg h|d h]; cbn [selectionTarget].
  - destruct Hnil as (rest & Heq & H1 & H2 & H3 & H4 & H5 & H6).
    exists rest. destruct (log repo logOptions); simpl; naive_solver.
  - destruct (log repo logOptions) as [heads|]; simpl;
      [|destruct Hnil as (rest & ?); exists rest; naive_solver].
    case_bool_decide;
      [destruct Hnil as (rest & ?); exists rest; naive_solver|].
    destruct (Hrun h) as (rest & ?). exists rest.
    destruct (negb _); simpl; naive_solver.
  - destruct (log repo logOptions) as [heads|]; simpl;
      [|destruct Hnil as (rest & ?); exists rest; naive_solver].
    case_bool_decide;
      [destruct Hnil as (rest & ?); exists rest; naive_solver|].
    destruct (Hrun h) as (rest & ?). exists rest.
    destruct (negb _); simpl; naive_solver.
Qed.

Lemma getCommitsForSelection_repository_calls_witness :
  ∃ rest,
    getCommitsForSelectionTrace (scenarioRepo featureLog)
      (DaysSelection (Some 0) 7) = CallLog logOptions :: rest
    ∧ rest = [].
Proof.
  destruct (getCommitsForSelection_repository_calls (scenarioRepo featureLog)
              (DaysSelection (Some 0) 7))
    as (rest & Heq & _ & _ & _ & _ & _ & Hnil).
  exists rest. split; [exact Heq|]. apply Hnil. reflexivity.
Defined.


(** ** More on the target-based variants *)

(** X7: a tag or commit resolution returns only commits of the head log
    (normalized) that lie outside the collected ancestry of the target; in
    particular the target commit itself is never returned. *)
Theorem target_selection_excludes_target_ancestry
    repo selection target heads result :
  selectionTarget selection = Some target →
  log repo logOptions = Ok heads →
  getCommitsForSelection repo selection = Ok result →
  ∀ r, r ∈ result →
    ∃ c h, c ∈ heads ∧ r = normalizeCommit c ∧ hash r = Some h
           ∧ (h ∉ collectAncestorHashes repo target MAX_LOG_ENTRIES)
           ∧ normalizeHash (Some target) ≠ Some h.
Proof.
  intros Htarget Hlog Hres r Hr.
  rewrite (target_selection_run _ _ _ _ Htarget Hlog) in Hres.
  case_bool_decide; [injection Hres as <-; by inversion Hr|].
  cbn zeta in Hres.
  destruct (negb _); [injection Hres as <-; by inversion Hr|].
  injection Hres as <-.
  apply list_elem_of_fmap in Hr as (c & -> & [Hkeep Hc]%list_elem_of_filter).
  apply keepHeadCommit_true in Hkeep as (h & Hnorm & Hnin).
  exists c, h. do 2 (split; [done|]).
  split; [by apply normalizeCommit_hash|]. split; [done|].
  intros Hstart. apply Hnin. by apply collect_contains_start.
Qed.

Lemma target_selection_excludes_target_ancestry_witness :
  ∃ c h, c ∈ featureLog ∧ commitOf "f4" ["f3"] = normalizeCommit c
         ∧ hash (commitOf "f4" ["f3"]) = Some h
         ∧ (h ∉ collectAncestorHashes (scenarioRepo featureLog) (str "m1")
                  MAX_LOG_ENTRIES)
         ∧ normalizeHash (Some (str "m1")) ≠ Some h.
Proof.
  apply (target_selection_excludes_target_ancestry (scenarioRepo featureLog)
           scenarioSelection (str "m1") featureLog (take 4 featureLog)
           eq_refl eq_refl scenario_result (commitOf "f4" ["f3"])).
  simpl. left.
Defined.

(** X8: when every head commit with a usable hash is already among the
    collected ancestors of the target (the branch is fully merged into the
    target), the result is the empty list, the same answer as for no common
    ancestor. *)
Theorem target_selection_fully_merged_is_empty repo selection target heads :
  selectionTarget selection = Some target →
  log repo logOptions = Ok heads →
  (∀ c h, c ∈ heads → normalizeHash (hash c) = Some h →
          h ∈ collectAncestorHashes repo target MAX_LOG_ENTRIES) →
  getCommitsForSelection repo selection = Ok [].
Proof.
  intros Htarget Hlog Hall.
  rewrite (target_selection_run _ _ _ _ Htarget Hlog).
  case_bool_decide; [done|]. cbn zeta. destruct (negb _); [done|].
  destruct (filter _ heads) as [|c l] eqn:E; [done|].
  assert (Hc : c ∈ filter
    (λ c, keepHeadCommit (collectAncestorHashes repo target MAX_LOG_ENTRIES) c
          = true) heads) by (rewrite E; by left).
  apply list_elem_of_filter in Hc as [(h & Hnorm & Hnin)%keepHeadCommit_true Hc].
  destruct Hnin. by eapply Hall.
Qed.


Lemma target_selection_fully_merged_is_empty_witness :
  getCommitsForSelection (scenarioRepo [commitOf "i0" []]) scenarioSelection
  = Ok [].
Proof.
  apply (target_selection_fully_merged_is_empty
           (scenarioRepo [commitOf "i0" []]) scenarioSelection (str "m1")
           [commitOf "i0" []]); [reflexivity|reflexivity|].
  intros c h Hc Hnorm. rewrite scenario_targets.
  apply list_elem_of_singleton in Hc as ->.
  vm_compute in Hnorm. injection Hnorm as <-.
  apply elem_of_union_r, elem_of_singleton. reflexivity.
Defined.

(** X9: resolving against a commit picked from the current log. When the
    picked commit has a usable hash it is its own common ancestor: the
    resolution never falls into the no-common-ancestor case, it returns the
    log commits outside the picked commit's collected ancestry, and the
    picked commit is not among them. When the picked commit's hash is
    missing or blank, nothing is collected and the result is empty. *)
Theorem picked_commit_resolution repo heads c :
  log repo logOptions = Ok heads →
  c ∈ heads →
  (∀ h, normalizeHash (hash c) = Some h →
     getCommitsForSelection repo (commitSelectionOf c)
     = Ok (normalizeCommit <$>
             filter (λ c', keepHeadCommit
                             (collectAncestorHashes repo (default [] (hash c))
                                MAX_LOG_ENTRIES) c' = true) heads)
     ∧ ∀ r, r ∈ normalizeCommit <$>
                  filter (λ c', keepHeadCommit
                             (collectAncestorHashes repo (default [] (hash c))
                                MAX_LOG_ENTRIES) c' = true) heads →
            hash r ≠ Some h)
  ∧ (normalizeHash (hash c) = None →
     getCommitsForSelection repo (commitSelectionOf c) = Ok []).
Proof.
  intros Hlog Hc.
  pose proof (target_selection_run repo (commitSelectionOf c)
                (default [] (hash c)) heads eq_refl Hlog) as Hrun.
  assert (Hlen : length heads ≠ 0%nat).
  { destruct heads; [by inversion Hc|done]. }
  rewrite (bool_decide_eq_false_2 _ Hlen) in Hrun. cbn zeta in Hrun.
  split.
  - intros h Hnorm.
    assert (Hstart : normalizeHash (Some (default [] (hash c))) = Some h).
    { destruct (hash c); [done|discriminate]. }
    assert (Hin : h ∈ collectAncestorHashes repo (default [] (hash c))
                        MAX_LOG_ENTRIES).
    { by apply collect_contains_start. }
    assert (Hex : existsb
        (λ h0, bool_decide (h0 ∈ collectAncestorHashes repo
                                   (default [] (hash c)) MAX_LOG_ENTRIES))
        (omap (λ c0, normalizeHash (hash c0)) heads) = true).
    { apply hasCommonAncestor_true. eauto. }
    rewrite Hex in Hrun. split; [done|].
    intros r (c' & -> & [Hkeep _]%list_elem_of_filter)%list_elem_of_fmap.
    apply keepHeadCommit_true in Hkeep as (h' & Hnorm' & Hnin).
    rewrite (normalizeCommit_hash _ _ Hnorm'). intros [= ->]. done.
  - intros Hnone.
    assert (Hempty : collectAncestorHashes repo (default [] (hash c))
                       MAX_LOG_ENTRIES = ∅).
    { unfold collectAncestorHashes, collectAncestorRun.
      assert (initialState (default [] (hash c)) = mkLoopState ∅ [] []) as ->.
      { unfold initialState.
        assert (normalizeHash (Some (default [] (hash c))) = None) as ->; [|done].
        destruct (hash c); [done|reflexivity]. }
      by rewrite loop_step. }
    rewrite Hempty in Hrun.
    destruct (existsb _ _) eqn:Hex; [|done].
    apply hasCommonAncestor_true in Hex as (? & ? & _ & _ & Hin).
    by apply not_elem_of_empty in Hin.
Qed.

Lemma picked_commit_resolution_witness :
  getCommitsForSelection (scenarioRepo featureLog)
    (commitSelectionOf (commitOf "f2" ["f1"]))
  = Ok [commitOf "f4" ["f3"]; commitOf "f3" ["f2"]].
Proof.
  destruct (proj1 (picked_commit_resolution (scenarioRepo featureLog) featureLog
             (commitOf "f2" ["f1"]) eq_refl ltac:(do 2 right; left))
             (str "f2") eq_refl) as [Hres _].
  rewrite Hres.
  assert (Ht : collectAncestorHashes (scenarioRepo featureLog) (str "f2")
                 MAX_LOG_ENTRIES = {[str "f2"; str "f1"; str "i0"]}).
  { unfold collectAncestorHashes, collectAncestorRun.
    rewrite (run_loop _ _ 4); vm_compute; reflexivity. }
  change (default [] (hash (commitOf "f2" ["f1"]))) with (str "f2").
  rewrite Ht. vm_compute. reflexivity.
Defined.


(** ** Sorting *)

Section StableSort.
Context {A : Type} (after : A → A → bool) (Q : A → Prop).
Hypothesis after_asym : ∀ x y, Q x → Q y → after x y = true → after y x = false.
Hypothesis after_trans :
  ∀ x y z, Q x → Q y → Q z →
    after x y = false → after y z = false → after x z = false.

Lemma insertSorted_Permutation x l : insertSorted after x l ≡ₚ x :: l.
Proof using Type.
  induction l as [|y l IH]; simpl; [done|].
  destruct (after x y); [|done]. rewrite IH. apply Permutation_swap.
Qed.

Lemma stableSort_Permutation l : stableSort after l ≡ₚ l.
Proof using Type.
  induction l as [|x l IH]; simpl; [done|].
  by rewrite insertSorted_Permutation, IH.
Qed.

Lemma insertSorted_sorted x l :
  Q x → Forall Q l →
  StronglySorted (λ a b, after a b = false) l →
  StronglySorted (λ a b, after a b = false) (insertSorted after x l).
Proof using after_asym after_trans.
  intros Hx HQ Hs. induction Hs as [|y l Hs IH Hy]; simpl.
  - repeat constructor.
  - apply Forall_cons in HQ as [HQy HQl].
    destruct (after x y) eqn:E.
    + constructor; [by apply IH|].
      rewrite insertSorted_Permutation. constructor; [by apply after_asym|done].
    + constructor; [by constructor|]. constructor; [done|].
      apply Forall_forall. intros z Hz.
      apply (after_trans x y z); try done.
      * by eapply Forall_forall in HQl.
      * by eapply Forall_forall in Hy.
Qed.

Lemma stableSort_sorted l :
  Forall Q l → StronglySorted (λ a b, after a b = false) (stableSort after l).
Proof using after_asym after_trans.
  induction 1 as [|x l Hx HQ IH]; simpl; [constructor|].
  apply insertSorted_sorted; [done| |done].
  by rewrite stableSort_Permutation.
Qed.

Lemma insertSorted_stable (P : A → Prop) `{!∀ x, Decision (P x)} x l :
  (∀ a b, P a → P b → after a b = false) →
  filter P (insertSorted after x l) = filter P (x :: l).
Proof using Type.
  intros Htie. induction l as [|y l IH]; simpl; [done|].
  destruct (after x y) eqn:E; [|done].
  rewrite filter_cons, IH, !filter_cons.
  destruct (decide (P x)) as [Hx|Hx]; [|done].
  destruct (decide (P y)) as [Hy|Hy]; [|done].
  by rewrite (Htie x y Hx Hy) in E.
Qed.

Lemma stableSort_stable (P : A → Prop) `{!∀ x, Decision (P x)} l :
  (∀ a b, P a → P b → after a b = false) →
  filter P (stableSort after l) = filter P l.
Proof using Type.
  intros Htie. induction l as [|x l IH]; simpl; [done|].
  rewrite insertSorted_stable by done. by rewrite !filter_cons, IH.
Qed.
End StableSort.

Lemma strLt_irrefl a : strLt a a = false.
Proof. induction a as [|x a IH]; simpl; [done|]. by rewrite N.ltb_irrefl. Qed.

Lemma strLt_trans a b c : strLt a b = true → strLt b c = true → strLt a c = true.
Proof.
  revert b c. induction a as [|x a IH]; intros [|y b] [|z c]; simpl; try done.
  destruct (N.ltb_spec x y), (N.ltb_spec y x), (N.ltb_spec y z),
    (N.ltb_spec z y), (N.ltb_spec x z), (N.ltb_spec z x);
    try done; try lia; eauto.
Qed.

Lemma strLt_total a b : strLt a b = false → strLt b a = false → a = b.
Proof.
  revert b. induction a as [|x a IH]; intros [|y b]; simpl; try done.
  destruct (N.ltb_spec x y), (N.ltb_spec y x); try done; try lia.
  intros H1 H2. f_equal; [lia|by apply IH].
Qed.

Lemma strLt_asym a b : strLt a b = true → strLt b a = false.
Proof.
  intros Hab. destruct (strLt b a) eqn:Hba; [|done].
  pose proof (strLt_trans _ _ _ Hab Hba) as Haa. by rewrite strLt_irrefl in Haa.
Qed.

Lemma strLt_negtrans a b c :
  strLt b a = false → strLt c b = false → strLt c a = false.
Proof.
  intros Hba Hcb. destruct (strLt c a) eqn:Hca; [|done].
  destruct (strLt a b) eqn:Hab.
  - by rewrite (strLt_trans _ _ _ Hca Hab) in Hcb.
  - rewrite (strLt_total _ _ Hab Hba) in Hca. by rewrite Hca in Hcb.
Qed.

(** ** Authors *)

Lemma setInsertionOrder_spec values :
  NoDup (setInsertionOrder values)
  ∧ ∀ v, v ∈ setInsertionOrder values ↔ v ∈ values.
Proof.
  unfold setInsertionOrder.
  assert (Hgen : ∀ acc, NoDup acc →
    NoDup (fold_left (λ acc v, if bool_decide (v ∈ acc) then acc else acc ++ [v])
             values acc)
    ∧ ∀ v, v ∈ fold_left (λ acc v, if bool_decide (v ∈ acc) then acc
                                    else acc ++ [v]) values acc
           ↔ v ∈ acc ∨ v ∈ values).
  { induction values as [|x values IH]; intros acc Hnd; simpl.
    - split; [done|]. intros v. rewrite elem_of_nil. naive_solver.
    - case_bool_decide as Hx.
      + destruct (IH acc Hnd) as [Hnd' Hin]. split; [done|].
        intros v. rewrite Hin, elem_of_cons. naive_solver.
      + destruct (IH (acc ++ [x])) as [Hnd' Hin].
        { apply NoDup_app. split; [done|]. split; [|apply NoDup_singleton].
          intros y Hy ->%list_elem_of_singleton. done. }
        split; [done|]. intros v.
        rewrite Hin, elem_of_app, list_elem_of_singleton, elem_of_cons.
        naive_solver. }
  destruct (Hgen [] (NoDup_nil_2)) as [Hnd Hin]. split; [done|].
  intros v. rewrite Hin, elem_of_nil. naive_solver.
Qed.

Lemma uniqueAuthors_elem_of commitsInRange a :
  a ∈ uniqueAuthors commitsInRange
  ↔ a ≠ [] ∧ ∃ c, c ∈ commitsInRange ∧ authorName c = a.
Proof.
  unfold uniqueAuthors. rewrite stableSort_Permutation.
  rewrite list_elem_of_filter, (proj2 (setInsertionOrder_spec _)).
  rewrite list_elem_of_fmap. split.
  - intros [Ht (c & -> & Hc)]. split; [|eauto]. by destruct (authorName c).
  - intros [Hne (c & Hc & <-)]. split; [|eauto]. by destruct (authorName c).
Qed.

(** X10: the author choices offered after a resolution. [uniqueAuthors] is
    strictly increasing in code-unit order (so it has no duplicates) and
    holds exactly the non-empty author names of the resolved commits;
    commits without an author name contribute no choice. *)
Theorem uniqueAuthors_sorted_exact commitsInRange :
  StronglySorted (λ a b, strLt a b = true) (uniqueAuthors commitsInRange)
  ∧ NoDup (uniqueAuthors commitsInRange)
  ∧ ∀ a, a ∈ uniqueAuthors commitsInRange
         ↔ a ≠ [] ∧ ∃ c, c ∈ commitsInRange ∧ authorName c = a.
Proof.
  assert (Hnd : NoDup (uniqueAuthors commitsInRange)).
  { unfold uniqueAuthors. rewrite stableSort_Permutation.
    apply NoDup_filter, setInsertionOrder_spec. }
  split; [|split; [done|apply uniqueAuthors_elem_of]].
  assert (Hs : StronglySorted (λ a b, strLt b a = false)
                 (uniqueAuthors commitsInRange)).
  { unfold uniqueAuthors.
    apply (stableSort_sorted (λ x y, strLt y x) (λ _, True)).
    - intros x y _ _. apply strLt_asym.
    - intros x y z _ _ _. apply strLt_negtrans.
    - by apply Forall_forall. }
  induction Hs as [|a l Hs IH Ha]; [constructor|].
  apply NoDup_cons in Hnd as [Hnin Hnd].
  constructor; [by apply IH|].
  apply Forall_forall. intros b Hb.
  destruct (strLt a b) eqn:E; [done|].
  assert (a = b) as ->; [|done].
  apply strLt_total; [done|]. by eapply Forall_forall in Ha.
Qed.

Lemma commitsForSummary_offered commitsInRange a :
  commitsInRange ≠ [] → a ∈ authorOptions commitsInRange →
  commitsForSummary a commitsInRange ≠ [].
Proof.
  intros Hne Ha. unfold commitsForSummary.
  case_bool_decide as Hall; [done|].
  apply elem_of_cons in Ha as [->|Ha]; [done|].
  apply uniqueAuthors_elem_of in Ha as (_ & c & Hc & Hname).
  intros Hnil.
  assert (c ∈ filter (λ commit, authorName commit = a) commitsInRange) as Hin
    by (by apply list_elem_of_filter).
  rewrite Hnil in Hin. by inversion Hin.
Qed.

(** X11: the author stage never reports "No commits found for the selected
    author" when the selection is one of the offered options: it then hands
    over a non-empty subsequence of the resolved commits, all of them for
    "All Authors", otherwise exactly the commits whose author name is the
    selection. *)
Theorem authorStage_offered_author commitsInRange pick a :
  pick (authorOptions commitsInRange) = Some a →
  a ∈ authorOptions commitsInRange →
  authorStage commitsInRange pick
  ≠ StageError "No commits found for the selected author"
  ∧ ∀ a' commits,
      authorStage commitsInRange pick = StageSummarize a' commits →
      a' = a ∧ commits ≠ [] ∧ sublist commits commitsInRange
      ∧ (a = allAuthors → commits = commitsInRange)
      ∧ (a ≠ allAuthors →
         ∀ c, c ∈ commits ↔ c ∈ commitsInRange ∧ authorName c = a).
Proof.
  intros Hpick Ha. unfold authorStage. rewrite Hpick.
  case_bool_decide as Hlen; [split; [done|by intros ? ?]|].
  case_bool_decide as Hua; [split; [done|by intros ? ?]|].
  destruct (truthyString a); simpl; [|split; [done|by intros ? ?]].
  assert (Hne : commitsInRange ≠ []) by (by destruct commitsInRange).
  pose proof (commitsForSummary_offered _ _ Hne Ha) as Hsome.
  case_bool_decide as Hcs; [by destruct (commitsForSummary a commitsInRange)|].
  split; [done|]. intros a' commits [= <- <-].
  split; [done|]. split; [done|].
  unfold commitsForSummary. case_bool_decide as Hall.
  - split; [done|]. split; [done|]. by intros [].
  - split; [apply sublist_filter|]. split; [by intros ?|].
    intros _ c. rewrite list_elem_of_filter. naive_solver.
Qed.

Lemma authorStage_offered_author_witness :
  authorStage authoredLog (λ options, options !! 2%nat)
  = StageSummarize (str "zoe")
      [authoredCommit "a1" "zoe"; authoredCommit "a4" "zoe"].
Proof.
  assert (Hopts : authorOptions authoredLog = [allAuthors; str "amy"; str "zoe"])
    by (vm_compute; reflexivity).
  destruct (authorStage_offered_author authoredLog (λ options, options !! 2%nat)
              (str "zoe")) as [_ Hsum].
  - by rewrite Hopts.
  - rewrite Hopts. do 2 right. left.
  - vm_compute. reflexivity.
Defined.

(** X12: when none of the resolved commits carries an author name, the
    stage stops with "No commits found for the selected range" although
    commits were found, whatever the user would pick. *)
Theorem authorStage_no_author_names commitsInRange pick :
  (∀ c, c ∈ commitsInRange → authorName c = []) →
  authorStage commitsInRange pick
  = StageError "No commits found for the selected range".
Proof.
  intros Hnone. unfold authorStage.
  case_bool_decide; [done|].
  assert (uniqueAuthors commitsInRange = []) as ->; [|done].
  destruct (uniqueAuthors commitsInRange) as [|a l] eqn:E; [done|].
  assert (Ha : a ∈ uniqueAuthors commitsInRange) by (rewrite E; by left).
  apply uniqueAuthors_elem_of in Ha as (Hne & c & Hc & Hname).
  rewrite (Hnone c Hc) in Hname. done.
Qed.

Lemma authorStage_no_author_names_witness :
  authorStage [authoredCommit "a2" ""] (λ options, options !! 0%nat)
  = StageError "No commits found for the selected range".
Proof.
  apply (authorStage_no_author_names [authoredCommit "a2" ""]).
  intros c Hc. apply list_elem_of_singleton in Hc as ->. reflexivity.
Defined.


(** ** Short hashes and tags *)

(** X13: [shortHash] yields a prefix of the hash of at most seven code
    units, exactly seven when the hash has that many; it is empty exactly
    for a missing or empty hash, and shortening twice changes nothing. *)
Theorem shortHash_prefix h :
  (length (shortHash h) ≤ 7)%nat
  ∧ (∀ s, h = Some s →
          shortHash h `prefix_of` s
          ∧ length (shortHash h) = (length s `min` 7)%nat)
  ∧ (shortHash h = [] ↔ h = None ∨ h = Some [])
  ∧ shortHash (Some (shortHash h)) = shortHash h.
Proof.
  assert (Hsome : ∀ s, shortHash (Some s) = take 7 s).
  { intros [|c s]; [done|reflexivity]. }
  destruct h as [s|].
  - rewrite Hsome. split; [rewrite length_take; lia|].
    split; [|split].
    + intros ? [= <-]. split; [apply prefix_take|]. rewrite length_take. lia.
    + destruct s; simpl; naive_solver.
    + rewrite Hsome. by rewrite take_take.
  - simpl. repeat split; try lia; try done; naive_solver.
Qed.

Lemma shortHash_prefix_witness :
  shortHash (Some (str "0123456789abcdef")) `prefix_of` str "0123456789abcdef"
  ∧ length (shortHash (Some (str "0123456789abcdef"))) = 7%nat.
Proof.
  exact (proj1 (proj2 (shortHash_prefix (Some (str "0123456789abcdef"))))
           (str "0123456789abcdef") eq_refl).
Defined.

Lemma orElse_truthy a b : truthyString b = true → truthyString (orElse a b) = true.
Proof.
  intros Hb. unfold orElse. destruct a as [s|]; [|done].
  by destruct (truthyString s) eqn:E.
Qed.

Lemma tagOfRef_commitHash repo ref :
  truthyString (name (tagOfRef repo ref)) = true →
  truthyString (commitHash (tagOfRef repo ref)) = true.
Proof.
  unfold tagOfRef. intros Hname.
  set (n := orElse (refName ref) (orElse (refRef ref) (orElse (refLabel ref) []))) in *.
  assert (Hn : truthyString n = true).
  { by destruct (getCommit repo _). }
  assert (Href : truthyString
    (orElse (refCommit ref) (orElse (refHash ref) (orElse (refObjectId ref) n)))
    = true) by (by do 3 apply orElse_truthy).
  destruct (getCommit repo _); simpl; [by apply orElse_truthy|done].
Qed.

Lemma StronglySorted_weaken {A} (Q : A → Prop) (R R' : A → A → Prop) l :
  Forall Q l → (∀ a b, Q a → Q b → R a b → R' a b) →
  StronglySorted R l → StronglySorted R' l.
Proof.
  intros HQ Himpl Hs. induction Hs as [|a l Hs IH Ha]; [constructor|].
  apply Forall_cons in HQ as [HQa HQl]. constructor; [by apply IH|].
  apply Forall_forall. intros b Hb. apply Himpl; [done| |].
  - by eapply Forall_forall in HQl.
  - by eapply Forall_forall in Ha.
Qed.

Lemma olderThan_valid a b ta tb :
  date a = Some ta → date b = Some tb → olderThan a b = false ↔ tb ≤ ta.
Proof.
  intros Ha Hb. unfold olderThan. rewrite Ha, Hb.
  rewrite Z.ltb_ge. lia.
Qed.

(** X14: when [getRefs] answers, [getTagsByRecency] answers too, whatever
    [getCommit] does: it returns the tags of the refs that have a name,
    each once, every one with a non-empty name and a non-empty commit hash.
    When all their dates are valid they are ordered newest first, and tags
    of equal date keep the order of the refs. *)
Theorem getTagsByRecency_sorted repo fetchRefs refs :
  getRefs repo = Some fetchRefs →
  fetchRefs 2 = Ok refs →
  ∃ tags,
    getTagsByRecency repo = Ok tags
    ∧ tags ≡ₚ filter (λ tag, name tag ≠ []) (tagOfRef (tagRepo repo) <$> refs)
    ∧ Forall (λ tag, name tag ≠ [] ∧ commitHash tag ≠ []) tags
    ∧ (Forall (λ tag, is_Some (date tag)) tags →
       StronglySorted
         (λ a b, ∃ ta tb, date a = Some ta ∧ date b = Some tb ∧ tb ≤ ta) tags
       ∧ ∀ t, filter (λ tag, date tag = Some t) tags
              = filter (λ tag, date tag = Some t)
                  (filter (λ tag, name tag ≠ [])
                          (tagOfRef (tagRepo repo) <$> refs))).
Proof.
  intros Hrefs Hfetch. unfold getTagsByRecency. rewrite Hrefs, Hfetch.
  set (all := tagOfRef (tagRepo repo) <$> refs).
  assert (Hfilter : filter (λ tag, truthyString (name tag) = true) all
                    = filter (λ tag, name tag ≠ []) all).
  { apply list_filter_iff. intros tag. by destruct (name tag). }
  rewrite Hfilter. set (named := filter (λ tag, name tag ≠ []) all).
  eexists. split; [done|].
  assert (Hperm : stableSort olderThan named ≡ₚ named)
    by apply stableSort_Permutation.
  split; [done|]. split.
  - rewrite Hperm. apply Forall_forall.
    intros tag [Hname Hin]%list_elem_of_filter. split; [done|].
    apply list_elem_of_fmap in Hin as (ref & -> & _).
    assert (truthyString (commitHash (tagOfRef (tagRepo repo) ref)) = true) as Ht.
    { apply tagOfRef_commitHash.
      by destruct (name (tagOfRef (tagRepo repo) ref)). }
    by destruct (commitHash (tagOfRef (tagRepo repo) ref)).
  - intros Hvalid. split.
    + assert (Hvalid' : Forall (λ tag, is_Some (date tag)) named)
        by (by rewrite <- Hperm).
      apply (StronglySorted_weaken (λ tag, is_Some (date tag))
               (λ a b, olderThan a b = false)); [exact Hvalid| |].
      * intros a b [ta Ha] [tb Hb] Hab. exists ta, tb.
        do 2 (split; [done|]). by apply (olderThan_valid a b).
      * apply (stableSort_sorted olderThan (λ tag, is_Some (date tag)));
          [| |done].
        -- intros a b [ta Ha] [tb Hb]. unfold olderThan. rewrite Ha, Hb.
           rewrite Z.ltb_lt, Z.ltb_ge. lia.
        -- intros a b c [ta Ha] [tb Hb] [tc Hc]. unfold olderThan.
           rewrite Ha, Hb, Hc, !Z.ltb_ge. lia.
    + intros t. apply stableSort_stable.
      intros a b Ha Hb. unfold olderThan. rewrite Ha, Hb.
      apply Z.ltb_ge. lia.
Qed.

Lemma getTagsByRecency_sorted_witness :
  getTagsByRecency taggedRepo
  = Ok [mkTagInfo (str "v2") (str "c2") (Some 300);
        mkTagInfo (str "v1") (str "c1") (Some 100);
        mkTagInfo (str "gone") (str "c9") (Some 0)].
Proof.
  destruct (getTagsByRecency_sorted taggedRepo
              (λ _, Ok [namedRef "v1" "c1"; namedRef "v2" "c2";
                        namedRef "gone" "c9"; namedRef "" "c1"])
              [namedRef "v1" "c1"; namedRef "v2" "c2";
               namedRef "gone" "c9"; namedRef "" "c1"] eq_refl eq_refl)
    as (tags & Hres & _).
  rewrite Hres. f_equal.
  assert (Hval : getTagsByRecency taggedRepo
    = Ok [mkTagInfo (str "v2") (str "c2") (Some 300);
          mkTagInfo (str "v1") (str "c1") (Some 100);
          mkTagInfo (str "gone") (str "c9") (Some 0)])
    by (vm_compute; reflexivity).
  rewrite Hval in Hres. by injection Hres.
Defined.


(** ** Formatting dates *)

Lemma padStart2_two_digits :
  Forall (λ n, padStart2 (numberToString (Some n))
               = [digit (n `div` 10); digit (n `mod` 10)])
         (seqZ 0 100).
Proof. apply (bool_decide_unpack _). vm_compute. exact I. Qed.

Lemma padStart2_spec n :
  0 ≤ n < 100 →
  padStart2 (numberToString (Some n)) = [digit (n `div` 10); digit (n `mod` 10)].
Proof.
  intros Hn. pose proof padStart2_two_digits as H.
  rewrite Forall_forall in H. apply H, elem_of_seqZ. lia.
Qed.

Lemma pretty_N_char_digit d :
  (d < 10)%N → Ascii.N_of_ascii (pretty_N_char d) = (48 + d)%N.
Proof.
  intros Hd.
  assert (d = 0 ∨ d = 1 ∨ d = 2 ∨ d = 3 ∨ d = 4 ∨ d = 5 ∨ d = 6 ∨ d = 7
          ∨ d = 8 ∨ d = 9)%N as Hcases by lia.
  decompose [or] Hcases; subst d; reflexivity.
Qed.

Lemma numberToString_year n :
  1000 ≤ n ≤ 9999 →
  numberToString (Some n)
  = [digit (n `div` 1000); digit ((n `div` 100) `mod` 10);
     digit ((n `div` 10) `mod` 10); digit (n `mod` 10)].
Proof.
  intros Hn. destruct n as [|p|p]; [lia| |lia].
  unfold numberToString, pretty, pretty_Z, pretty, pretty_positive, pretty,
    pretty_N.
  rewrite decide_False by done.
  set (x := N.pos p). assert (Hx : (1000 ≤ x ≤ 9999)%N) by (unfold x; lia).
  assert (Hz : Z.pos p = Z.of_N x) by done. rewrite Hz. clearbody x. clear Hz Hn p.
  rewrite (pretty_N_go_step x) by lia.
  rewrite (pretty_N_go_step (x / 10)%N)
    by (apply N.div_str_pos; lia).
  rewrite (pretty_N_go_step (x / 10 / 10)%N)
    by (apply N.div_str_pos; split; [lia|];
        apply N.div_le_lower_bound; lia).
  rewrite (pretty_N_go_step (x / 10 / 10 / 10)%N)
    by (apply N.div_str_pos; split; [lia|];
        apply N.div_le_lower_bound; [lia|];
        apply N.div_le_lower_bound; lia).
  assert (Hzero : (x / 10 / 10 / 10 / 10 = 0)%N).
  { rewrite !N.Div0.div_div. apply N.div_small. lia. }
  rewrite Hzero, pretty_N_go_0.
  cbn [str String.list_ascii_of_string fmap list_fmap].
  rewrite !pretty_N_char_digit by (apply N.mod_lt; lia).
  unfold digit.
  repeat f_equal; apply N2Z.inj;
    rewrite ?N2Z.inj_add, ?N2Z.inj_mod, ?N2Z.inj_div, ?Z2N.id;
    try (Z.to_euclidean_division_equations; lia).
Qed.

Lemma digit_isDateChar d : 0 ≤ d ≤ 9 → isDateChar (digit d).
Proof. intros Hd. left. unfold digit. lia. Qed.

Lemma digit_inj d d' : 0 ≤ d → 0 ≤ d' → digit d = digit d' → d = d'.
Proof. unfold digit. lia. Qed.

Lemma formatDate_cases date format :
  let day := padStart2 (numberToString (getDate <$> date)) in
  let month := padStart2 (numberToString ((λ f, getMonth f + 1) <$> date)) in
  let year := numberToString (getFullYear <$> date) in
  ∃ sep, (sep = 0x2D ∨ sep = 0x5F ∨ sep = 0x2E)%N
    ∧ (formatDate date format = day ++ [sep] ++ month ++ [sep] ++ year
       ∨ (formatDate date format = month ++ [sep] ++ day ++ [sep] ++ year)
       ∨ (formatDate date format = year ++ [sep] ++ month ++ [sep] ++ day)).
Proof.
  intros day month year. unfold formatDate. fold day month year.
  repeat case_bool_decide;
    [exists 0x2D%N|exists 0x2D%N|exists 0x2D%N|exists 0x5F%N|exists 0x2E%N
    |exists 0x2D%N]; split; auto.
Qed.

(** X15: for a date with a four-digit year, whatever the format string,
    the formatted date has exactly ten code units, all of them decimal
    digits or one of the separators [-], [_] and [.]; so it holds no path
    separator. A format that is none of the five known ones is formatted as
    [DD-MM-YYYY]. *)
Theorem formatDate_shape f format :
  fourDigitYearDate f →
  length (formatDate (Some f) format) = 10%nat
  ∧ Forall isDateChar (formatDate (Some f) format)
  ∧ (0x2F%N ∉ formatDate (Some f) format)
  ∧ (0x5C%N ∉ formatDate (Some f) format)
  ∧ (format ∉ [str "DD-MM-YYYY"; str "MM-DD-YYYY"; str "YYYY-MM-DD";
               str "YYYY_MM_DD"; str "DD.MM.YYYY"] →
     formatDate (Some f) format = formatDate (Some f) (str "DD-MM-YYYY")).
Proof.
  intros (Hd & Hm & Hy).
  assert (Hchars : length (formatDate (Some f) format) = 10%nat
                   ∧ Forall isDateChar (formatDate (Some f) format)).
  { destruct (formatDate_cases (Some f) format) as (sep & Hsep & Hcase).
    cbn [fmap option_fmap option_map] in Hcase.
    rewrite (padStart2_spec (getDate f)) in Hcase by lia.
    rewrite (padStart2_spec (getMonth f + 1)) in Hcase by lia.
    rewrite (numberToString_year (getFullYear f)) in Hcase by lia.
    assert (Hs : isDateChar sep) by (right; exact Hsep).
    destruct Hcase as [-> | [-> | ->]]; (split; [reflexivity|]);
      cbn [app];
      repeat (apply Forall_cons; split;
              [first [exact Hs
                     | apply digit_isDateChar;
                       Z.to_euclidean_division_equations; lia]|]);
      apply Forall_nil_2. }
  destruct Hchars as [Hlen Hall]. split; [done|]. split; [done|].
  split; [|split].
  - intros Hin. eapply Forall_forall in Hall; [|exact Hin].
    unfold isDateChar in Hall. lia.
  - intros Hin. eapply Forall_forall in Hall; [|exact Hin].
    unfold isDateChar in Hall. lia.
  - intros Hnot. rewrite !not_elem_of_cons in Hnot.
    destruct Hnot as (H1 & H2 & H3 & H4 & H5 & _).
    unfold formatDate.
    rewrite (bool_decide_eq_true_2 (str "DD-MM-YYYY" = str "DD-MM-YYYY")) by done.
    by rewrite !bool_decide_eq_false_2 by done.
Qed.

Lemma formatDate_shape_witness :
  length (formatDate (Some (mkDateFields 9 0 2025)) (str "YYYY-MM-DD")) = 10%nat
  ∧ formatDate (Some (mkDateFields 9 0 2025)) (str "YYYY-MM-DD")
    = str "2025-01-09".
Proof.
  split; [|reflexivity].
  apply (formatDate_shape (mkDateFields 9 0 2025) (str "YYYY-MM-DD")).
  unfold fourDigitYearDate. simpl. lia.
Defined.

Lemma formatDate_layout format :
  ∃ sep,
    (∀ date, formatDate date format
       = padStart2 (numberToString (getDate <$> date)) ++ [sep]
         ++ padStart2 (numberToString ((λ f, getMonth f + 1) <$> date)) ++ [sep]
         ++ numberToString (getFullYear <$> date))
    ∨ (∀ date, formatDate date format
       = padStart2 (numberToString ((λ f, getMonth f + 1) <$> date)) ++ [sep]
         ++ padStart2 (numberToString (getDate <$> date)) ++ [sep]
         ++ numberToString (getFullYear <$> date))
    ∨ (∀ date, formatDate date format
       = numberToString (getFullYear <$> date) ++ [sep]
         ++ padStart2 (numberToString ((λ f, getMonth f + 1) <$> date)) ++ [sep]
         ++ padStart2 (numberToString (getDate <$> date))).
Proof.
  unfold formatDate.
  repeat case_bool_decide;
    [exists 0x2D%N|exists 0x2D%N|exists 0x2D%N|exists 0x5F%N|exists 0x2E%N
    |exists 0x2D%N]; auto.
Qed.

(** X16: under any one format the formatted date determines the date:
    two dates with four-digit years that differ in day, month or year are
    never formatted alike. *)
Theorem formatDate_injective f f' format :
  fourDigitYearDate f → fourDigitYearDate f' →
  formatDate (Some f) format = formatDate (Some f') format →
  f = f'.
Proof.
  intros (Hd & Hm & Hy) (Hd' & Hm' & Hy').
  destruct (formatDate_layout format) as (sep & [Hl|[Hl|Hl]]);
    rewrite !Hl; cbn [fmap option_fmap option_map];
    rewrite (padStart2_spec (getDate f)), (padStart2_spec (getDate f')),
      (padStart2_spec (getMonth f + 1)), (padStart2_spec (getMonth f' + 1)),
      (numberToString_year (getFullYear f)),
      (numberToString_year (getFullYear f')) by lia;
    cbn [app]; intros Heq; injection Heq; clear Heq; intros;
    repeat match goal with
           | H : digit _ = digit _ |- _ =>
               apply digit_inj in H;
               [|Z.to_euclidean_division_equations; lia
                |Z.to_euclidean_division_equations; lia]
           end;
    destruct f as [d m y], f' as [d' m' y']; cbn [getDate getMonth getFullYear] in *;
    f_equal; Z.to_euclidean_division_equations; lia.
Qed.

Lemma formatDate_injective_witness :
  mkDateFields 9 0 2025 = mkDateFields 9 0 2025.
Proof.
  apply (formatDate_injective (mkDateFields 9 0 2025) (mkDateFields 9 0 2025)
           (str "DD.MM.YYYY")).
  - unfold fourDigitYearDate. simpl. lia.
  - unfold fourDigitYearDate. simpl. lia.
  - reflexivity.
Defined.

(** ** The day span *)

Lemma ceil_div_spec a b :
  0 < b → (- ((- a) `div` b) - 1) * b < a ≤ - ((- a) `div` b) * b.
Proof. intros Hb. Z.to_euclidean_division_equations. nia. Qed.

(** X17: for a valid date within range, [calculateDaysSpan] is the least
    whole number of days, never below one, that covers the time elapsed
    since the date: one for a date in the future or at most a day old, [n]
    for a date exactly [n >= 1] days old, and it never grows when the date
    moves forward. An invalid date gives NaN. For a tag or commit selection
    the day count put into the file name is this span, for a days selection
    it is the number the user entered. *)
Theorem calculateDaysSpan_least_cover now t :
  spanInRange now t →
  ∃ d,
    calculateDaysSpan now (Some t) = Some d
    ∧ 1 ≤ d
    ∧ now - t ≤ d * msInDay
    ∧ (∀ d', 1 ≤ d' → now - t ≤ d' * msInDay → d ≤ d')
    ∧ (now - t ≤ msInDay → d = 1)
    ∧ (∀ n, 1 ≤ n → now - t = n * msInDay → d = n)
    ∧ (∀ t' d', spanInRange now t' → t ≤ t' →
         calculateDaysSpan now (Some t') = Some d' → d' ≤ d)
    ∧ calculateDaysSpan now None = None
    ∧ (∀ tag h, daysAgoOf now (TagSelection (Some t) tag h) = Some d)
    ∧ (∀ h, daysAgoOf now (CommitSelection (Some t) h) = Some d)
    ∧ (∀ s n, daysAgoOf now (DaysSelection s n) = Some n).
Proof.
  intros _. unfold daysAgoOf, calculateDaysSpan. cbv zeta.
  set (c := - ((- (now - t)) `div` msInDay)).
  pose proof (ceil_div_spec (now - t) msInDay eq_refl) as Hc. fold c in Hc.
  assert (Hms : msInDay = 86400000) by reflexivity.
  exists (Z.max 1 c). split; [done|].
  split; [lia|]. split; [nia|]. split; [intros d' Hd' Hcover; nia|].
  split; [intros Hle; nia|]. split; [intros n Hn Heq; nia|].
  split; [|done].
  intros t' d' _ Hle [= <-].
  pose proof (ceil_div_spec (now - t') msInDay eq_refl) as Hc'.
  set (c' := - ((- (now - t')) `div` msInDay)) in *. nia.
Qed.

Lemma calculateDaysSpan_least_cover_witness :
  ∃ d, calculateDaysSpan (10 * msInDay + 1) (Some msInDay) = Some d ∧ d = 10.
Proof.
  destruct (calculateDaysSpan_least_cover (10 * msInDay + 1) msInDay
              ltac:(unfold spanInRange; vm_compute; reflexivity))
    as (d & Hd & _).
  exists d. split; [exact Hd|].
  vm_compute in Hd. by injection Hd.
Defined.


(** ** Parsing the log *)

Lemma splitOn_no_sep sep s : sep ∉ s → splitOn sep s = [s].
Proof.
  induction s as [|c s IH]; simpl; [done|]. intros Hnin.
  apply not_elem_of_cons in Hnin as [Hne Hnin].
  rewrite (proj2 (N.eqb_neq c sep)) by done. by rewrite IH.
Qed.

Lemma splitOn_app sep a b :
  sep ∉ a → splitOn sep (a ++ sep :: b) = a :: splitOn sep b.
Proof.
  induction a as [|c a IH]; simpl; intros Hnin.
  - by rewrite N.eqb_refl.
  - apply not_elem_of_cons in Hnin as [Hne Hnin].
    rewrite (proj2 (N.eqb_neq c sep)) by done. by rewrite IH.
Qed.

Lemma split_joinSpaces words :
  Forall (λ p, p ≠ [] ∧ 0x20%N ∉ p) words → words ≠ [] →
  splitOn 0x20 (joinSpaces words) = words.
Proof.
  induction 1 as [|w rest [Hne Hsp] Hrest IH]; [done|]. intros _.
  destruct rest as [|w' rest]; [by apply splitOn_no_sep|].
  change (joinSpaces (w :: w' :: rest))
    with (w ++ 0x20%N :: joinSpaces (w' :: rest)).
  rewrite splitOn_app by done. by rewrite IH.
Qed.

Lemma parse_parents words :
  Forall (λ p, p ≠ [] ∧ 0x20%N ∉ p) words →
  (if truthyString (joinSpaces words)
   then filter (λ p, truthyString p = true) (splitOn 0x20 (joinSpaces words))
   else []) = words.
Proof.
  intros Hwords. destruct words as [|w rest]; [done|].
  rewrite split_joinSpaces by done.
  assert (Hfilter : filter (λ p, truthyString p = true) (w :: rest) = w :: rest).
  { clear -Hwords. induction Hwords as [|p l [Hne _] _ IH]; [done|].
    rewrite filter_cons, IH. by destruct p. }
  rewrite Hfilter. destruct (truthyString _) eqn:E; [done|].
  apply truthyString_false in E.
  apply Forall_cons in Hwords as [[Hne _] _].
  destruct rest; simpl in E; [done|]. by destruct w.
Qed.

Lemma parseRecord_render r rest :
  cleanRecord r →
  ∃ record,
    renderRecord r ++ rest = record ++ RECORD_SEPARATOR :: rest
    ∧ (RECORD_SEPARATOR ∉ record)
    ∧ truthyString record = true
    ∧ parseRecord record = parsedOf r.
Proof.
  intros [Hfields Hparents].
  apply Forall_cons in Hfields as [[Hf1 Hr1] Hfields].
  apply Forall_cons in Hfields as [[Hf2 Hr2] Hfields].
  apply Forall_cons in Hfields as [[Hf3 Hr3] Hfields].
  apply Forall_cons in Hfields as [[Hf4 Hr4] Hfields].
  apply Forall_cons in Hfields as [[Hf5 Hr5] _].
  assert (Hrs : RECORD_SEPARATOR ≠ FIELD_SEPARATOR) by done.
  exists ((lead r ++ recHash r) ++ FIELD_SEPARATOR :: joinSpaces (recParents r)
          ++ FIELD_SEPARATOR :: recAuthorName r
          ++ FIELD_SEPARATOR :: recAuthorDate r
          ++ FIELD_SEPARATOR :: recSubject r).
  split; [|split; [|split]].
  - unfold renderRecord. by simplify_list_eq.
  - repeat first [done | apply not_elem_of_app; split
                 | apply not_elem_of_cons; split].
  - destruct (lead r ++ recHash r); done.
  - unfold parseRecord, parsedOf.
    rewrite !splitOn_app, splitOn_no_sep by done.
    cbn [lookup list_lookup]. by rewrite parse_parents.
Qed.

Lemma parseCommits_render_all records :
  Forall cleanRecord records →
  parseCommits (concat (renderRecord <$> records)) = parsedOf <$> records.
Proof.
  unfold parseCommits. induction 1 as [|r records Hr _ IH]; [done|].
  cbn [fmap list_fmap concat].
  destruct (parseRecord_render r (concat (renderRecord <$> records)) Hr)
    as (record & -> & Hnin & Htruthy & Hparse).
  rewrite splitOn_app by done.
  rewrite filter_cons, decide_True by done.
  cbn [fmap list_fmap]. by rewrite Hparse, IH.
Qed.

Lemma trimStart_app_whitespace pre s :
  whitespaceOnly pre → trimStart (pre ++ s) = trimStart s.
Proof. induction 1 as [|c pre Hc _ IH]; simpl; [done|]. by rewrite Hc. Qed.

(** X18: [parseCommits] reads back what [git log] prints under the test's
    format. For records whose fields hold no separator, the parser returns
    one commit per record, in order, with the parents split into the
    original words and author, date and subject as printed; the hash comes
    back with whatever precedes the record (the line break between
    records) still attached, and [normalizeHash] then recovers the hash
    itself. *)
Theorem parseCommits_reads_back_log records :
  Forall cleanRecord records →
  parseCommits (concat (renderRecord <$> records)) = parsedOf <$> records
  ∧ ∀ r, r ∈ records → whitespaceOnly (lead r) → normalized (recHash r) →
         parsedHash (parsedOf r) = Some (lead r ++ recHash r)
         ∧ normalizeHash (parsedHash (parsedOf r)) = Some (recHash r).
Proof.
  intros Hclean. split; [by apply parseCommits_render_all|].
  intros r _ Hws (Hne & Hl & Ht). split; [done|].
  cbn [parsedOf parsedHash].
  assert (Htrim : trim (lead r ++ recHash r) = recHash r).
  { unfold trim. rewrite trimStart_app_whitespace by done.
    by rewrite trimStart_fixed, trimEnd_fixed. }
  unfold normalizeHash. rewrite Htrim.
  destruct (recHash r) as [|c s] eqn:E; [done|].
  by destruct (lead r).
Qed.

Lemma sampleRecords_clean : Forall cleanRecord sampleRecords.
Proof.
  unfold sampleRecords.
  repeat (apply Forall_cons; split); [| |apply Forall_nil_2];
    unfold cleanRecord; (split; apply (bool_decide_unpack _); vm_compute; exact I).
Qed.

Lemma parseCommits_reads_back_log_witness :
  parseCommits (concat (renderRecord <$> sampleRecords))
  = parsedOf <$> sampleRecords.
Proof.
  exact (proj1 (parseCommits_reads_back_log sampleRecords sampleRecords_clean)).
Defined.

(** ** Files of a commit *)

Lemma splitOn_pieces sep s :
  splitOn sep s ≠ [] ∧ Forall (λ piece, sep ∉ piece) (splitOn sep s).
Proof.
  induction s as [|c s [Hne Hall]]; simpl.
  - split; [done|]. repeat constructor. by inversion 1.
  - destruct (N.eqb_spec c sep) as [->|Hc].
    + split; [done|]. constructor; [by inversion 1|done].
    + destruct (splitOn sep s) as [|piece pieces]; [done|].
      apply Forall_cons in Hall as [Hpiece Hall].
      split; [done|]. constructor; [|done].
      by apply not_elem_of_cons.
Qed.

Lemma lastSegment_no_slash change : 0x2F%N ∉ lastSegment change.
Proof.
  unfold lastSegment.
  destruct (splitOn_pieces 0x2F (path change)) as [_ Hall].
  destruct (last _) as [piece|] eqn:E; [|by inversion 1].
  apply last_Some in E as [l' E]. rewrite E in Hall.
  by apply Forall_app in Hall as [_ [? _]%Forall_cons].
Qed.

(** X19: the files line of a summary entry lists at most twenty changes,
    the first ones in order; each listed entry is a status letter [M], [A]
    or [D] ([D] for every status other than 0 and 1), a space, and the last
    path segment, which holds no slash; and the line is empty exactly when
    the commit has no changes. *)
Theorem filesChanged_entries changes :
  length (filesChanged changes) = (length changes `min` 20)%nat
  ∧ (∀ i entry, filesChanged changes !! i = Some entry →
       ∃ change, changes !! i = Some change
         ∧ entry = statusLetter change :: 0x20%N :: lastSegment change
         ∧ statusLetter change ∈ [0x4D; 0x41; 0x44]%N
         ∧ (statusLetter change = 0x44%N ↔ status change ≠ 0 ∧ status change ≠ 1)
         ∧ (0x2F%N ∉ lastSegment change))
  ∧ (filesSummary changes = [] ↔ changes = []).
Proof.
  split; [|split].
  - unfold filesChanged. rewrite length_take, length_fmap. lia.
  - intros i entry Hi. unfold filesChanged in Hi.
    apply lookup_take_Some in Hi as [Hi _].
    apply list_lookup_fmap_Some in Hi as (change & Hchange & ->).
    exists change. do 2 (split; [done|]).
    split; [|split; [|apply lastSegment_no_slash]].
    + unfold statusLetter. repeat case_match; set_solver.
    + unfold statusLetter.
      destruct (Z.eqb_spec (status change) 0), (Z.eqb_spec (status change) 1);
        split; try done; try lia; naive_solver.
  - unfold filesSummary. destruct changes as [|c changes]; [done|].
    rewrite bool_decide_eq_true_2; [done|].
    unfold filesChanged. simpl. lia.
Qed.

Lemma filesChanged_entries_witness :
  ∃ change,
    [mkChange 5 (str "/repo/src/app.ts")] !! 0%nat = Some change
    ∧ str "D app.ts" = statusLetter change :: 0x20%N :: lastSegment change
    ∧ statusLetter change ∈ [0x4D; 0x41; 0x44]%N
    ∧ (statusLetter change = 0x44%N ↔ status change ≠ 0 ∧ status change ≠ 1)
    ∧ (0x2F%N ∉ lastSegment change).
Proof.
  apply (proj1 (proj2 (filesChanged_entries
                         [mkChange 5 (str "/repo/src/app.ts")])) 0%nat).
  reflexivity.
Defined.
